(** * tools/migrate.py: PURL.org XML to YAML migration, verified model

    A shallow embedding of [tools/migrate.py].  The script reads a PURL.org
    XML export with a SAX content handler ([OCLCHandler]), validates every
    [<purl>] element, collects the resulting dictionaries in the two global
    lists [exact] and [prefix], and finally writes a YAML configuration.

    Modelling decisions.
    - Text: a Python [str] is a [string]; a character is an [ascii] read as
      a code point of the ASCII range.  [str.strip], [str.lower],
      [str.upper] and [re.IGNORECASE] are modelled on that range.
    - The SAX parser is an external collaborator.  A well-formed document is
      a [node] tree, and [events_of] is the callback sequence the parser
      delivers for it; character data split into several chunks is a run of
      adjacent [Text] nodes.
    - The handler keeps one dictionary object in [self.entry] and appends
      that very object to the global lists, so dictionaries live in a
      [heap] and the lists hold references.
    - [raise ValueError(...)] is a [Raise] result; the constructor of
      [error] records which message was formatted, with its arguments. *)

From stdpp Require Import gmap strings list fin_maps sorting.
From Stdlib Require Import Ascii.

Module Migrate.

(** * The program *)

(** ** Text primitives *)

(** [str.isspace] on the ASCII range: TAB, LF, VT, FF, CR, FS, GS, RS, US
    and the space. *)
Definition is_space (c : ascii) : bool :=
  match c with
  | "009" | "010" | "011" | "012" | "013"
  | "028" | "029" | "030" | "031" | " " => true
  | _ => false
  end%char.

Definition is_upper (c : ascii) : bool :=
  let n := nat_of_ascii c in (65 <=? n) && (n <=? 90).

Definition is_lower (c : ascii) : bool :=
  let n := nat_of_ascii c in (97 <=? n) && (n <=? 122).

Definition lower_char (c : ascii) : ascii :=
  if is_upper c then ascii_of_nat (nat_of_ascii c + 32) else c.

Definition upper_char (c : ascii) : ascii :=
  if is_lower c then ascii_of_nat (nat_of_ascii c - 32) else c.

Fixpoint map_chars (f : ascii -> ascii) (s : string) : string :=
  match s with
  | EmptyString => EmptyString
  | String c s' => String (f c) (map_chars f s')
  end.

(** [s.lower()] and [s.upper()]. *)
Definition lower (s : string) : string := map_chars lower_char s.

Definition upper (s : string) : string := map_chars upper_char s.

Fixpoint lstrip (s : string) : string :=
  match s with
  | EmptyString => EmptyString
  | String c s' => if is_space c then lstrip s' else s
  end.

Fixpoint rstrip (s : string) : string :=
  match s with
  | EmptyString => EmptyString
  | String c s' =>
      match rstrip s' with
      | EmptyString => if is_space c then EmptyString else String c EmptyString
      | r => String c r
      end
  end.

(** [s.strip()]. *)
Definition strip (s : string) : string := rstrip (lstrip s).

(** [len(s)]. *)
Definition len (s : string) : nat := String.length s.

(** The line feed, and the one-character text '\n' of the templates. *)
Definition line_feed : ascii := "010"%char.

Definition nl : string := String line_feed "".

(** ** Regular expressions

    The fragment of Python's [re] that the two patterns of the script
    use: literal characters, [.], concatenation, [|], [?] and [+] on a
    single character, matched by backtracking with Python's priorities
    (left alternative first, greedy repetition). *)

Inductive atom : Type :=
| Lit (c : ascii)
| AnyChar.

Inductive regex : Type :=
| Eps
| Atom (a : atom)
| Seq (r1 r2 : regex)
| Alt (r1 r2 : regex)
| Opt (r : regex)
| Plus (a : atom).

(** One character against one atom.  With [ic] ([re.IGNORECASE]) a literal
    is compared after lowering both sides; [.] matches anything but a line
    feed (no [re.DOTALL] in the script). *)
Definition atom_matches (ic : bool) (a : atom) (c : ascii) : bool :=
  match a with
  | Lit x =>
      if ic then bool_decide (lower_char x = lower_char c)
      else bool_decide (x = c)
  | AnyChar => negb (bool_decide (c = line_feed))
  end.

Section Matcher.
Context {A : Type}.
Variable ic : bool.

(** Greedy [a+]: take as many characters as possible, give one back at a
    time while the continuation fails. *)
Fixpoint match_plus (a : atom) (s : string) (k : string -> option A)
  : option A :=
  match s with
  | EmptyString => None
  | String c s' =>
      if atom_matches ic a c then
        match match_plus a s' k with
        | Some x => Some x
        | None => k s'
        end
      else None
  end.

(** [match_re r s k]: match [r] at the front of [s] and hand the rest of
    the subject to [k]; the first success in backtracking order wins. *)
Fixpoint match_re (r : regex) (s : string) (k : string -> option A)
  : option A :=
  match r with
  | Eps => k s
  | Atom a =>
      match s with
      | String c s' => if atom_matches ic a c then k s' else None
      | EmptyString => None
      end
  | Seq r1 r2 => match_re r1 s (fun s' => match_re r2 s' k)
  | Alt r1 r2 =>
      match match_re r1 s k with
      | Some x => Some x
      | None => match_re r2 s k
      end
  | Opt r1 =>
      match match_re r1 s k with
      | Some x => Some x
      | None => k s
      end
  | Plus a => match_plus a s k
  end.
End Matcher.

(** A compiled pattern object.  Both patterns of the script start with [^]
    and are compiled without [re.MULTILINE], so [body] is only ever tried
    at position 0 of the subject. *)
Record pattern : Type := Pattern {
  body : regex;
  ignorecase : bool
}.

(** [p.match(s)]: the text left after the match, when there is one. *)
Definition re_match (p : pattern) (s : string) : option string :=
  match_re (ignorecase p) (body p) s Some.

(** [p.sub('', s)] for a pattern anchored with [^]: the only possible
    match starts at position 0; it is removed, and the scan that resumes
    after it finds nothing more because [^] fails there. *)
Definition re_sub_empty (p : pattern) (s : string) : string :=
  match re_match p s with
  | Some rest => rest
  | None => s
  end.

(** The characters that [re] gives a meaning of their own in a pattern. *)
Definition re_special (c : ascii) : bool :=
  match c with
  | "." | "\" | "[" | "{" | "(" | ")" | "*" | "+" | "?" | "^" | "$" | "|"
      => true
  | _ => false
  end%char.

(** Translation of pattern text: an ordinary character is a literal and
    [.] is the wildcard.  Any other special character makes the text a
    pattern outside the modelled fragment ([None]). *)
Fixpoint re_parse (pat : string) : option regex :=
  match pat with
  | EmptyString => Some Eps
  | String c pat' =>
      match re_parse pat' with
      | None => None
      | Some r =>
          if bool_decide (c = "."%char) then Some (Seq (Atom AnyChar) r)
          else if re_special c then None
          else Some (Seq (Atom (Lit c)) r)
      end
  end.

(** [re.compile('^' + text, re.IGNORECASE)]. *)
Definition re_compile_anchored_i (text : string) : option pattern :=
  match re_parse text with
  | Some r => Some (Pattern r true)
  | None => None
  end.

Fixpoint lits (s : string) : regex :=
  match s with
  | EmptyString => Eps
  | String c s' => Seq (Atom (Lit c)) (lits s')
  end.

(** [r'^(https?|ftp)\:\/\/.+'], used with [re.match] and no flags. *)
Definition url_re : pattern :=
  Pattern
    (Seq (Alt (Seq (lits "http") (Opt (Atom (Lit "s"%char)))) (lits "ftp"))
         (Seq (lits "://") (Plus AnyChar)))
    false.

(** ** The SAX interface *)

#[local] Unset Elimination Schemes.
(** A well-formed XML document, as far as the handler can observe it:
    element names and character data (attributes are passed to
    [startElement] and ignored there). *)
Inductive node : Type :=
| Text (chunk : string)
| Element (name : string) (children : list node).
#[local] Set Elimination Schemes.

(** The callbacks that reach the content handler. *)
Inductive event : Type :=
| StartElement (name : string)
| Characters (chunk : string)
| EndElement (name : string).

(** The callbacks for a document, in document order. *)
Fixpoint events_of (n : node) : list event :=
  match n with
  | Text chunk => [Characters chunk]
  | Element name children =>
      StartElement name :: concat (map events_of children) ++ [EndElement name]
  end.

(** ** Errors and results *)

(** Every failure of the script is a [ValueError]; the constructor names
    the message that was formatted and carries its arguments.
    - [EmptyField name count]: 'Empty <name> for <purl> count'
    - [MissingField name count]: 'No <name> for <purl> count'
    - [PrefixMismatch count id base_url]: 'In <purl> count the <id> "id"
      does not begin with base_url "base_url"'
    - [InvalidUrl count url]: 'In <purl> count the <url> "url" is not an
      absolute HTTP or FTP URL'
    - [UnknownType type count]: 'Unknown type "type" for <purl> count'
    - [NoEntries]: 'No entries to migrate'
    [PatternOutsideModel] is not a Python outcome: it marks a run whose
    [base_url] is pattern text that [re_parse] does not cover. *)
Inductive error : Type :=
| EmptyField (name : string) (count : nat)
| MissingField (name : string) (count : nat)
| PrefixMismatch (count : nat) (id base_url : string)
| InvalidUrl (count : nat) (url : string)
| UnknownType (type : string) (count : nat)
| NoEntries
| PatternOutsideModel (text : string).

Inductive result (A : Type) : Type :=
| Ok (a : A)
| Raise (e : error).
Arguments Ok {A} a.
Arguments Raise {A} e.

Definition bind {A B : Type} (m : result A) (f : A -> result B) : result B :=
  match m with
  | Ok a => f a
  | Raise e => Raise e
  end.

(** The record number that a message carries. *)
Definition error_index (e : error) : option nat :=
  match e with
  | EmptyField _ n | MissingField _ n | PrefixMismatch n _ _
  | InvalidUrl n _ | UnknownType _ n => Some n
  | NoEntries | PatternOutsideModel _ => None
  end.

(** ** Program state *)

(** A dictionary such as [self.entry]: keys 'id', 'type', 'url', 'rule'. *)
Abbreviation dict := (gmap string string).

(** The result of [argparse] after lines 88-90. *)
Record args : Type := Args {
  idspace : string;
  upper_idspace : string;
  lower_idspace : string;
  base_url : string
}.

Definition parse_args (project : string) : args :=
  {| idspace := project;
     upper_idspace := upper project;
     lower_idspace := lower project;
     base_url := String.append "/obo/" (lower project) |}.

(** The handler object together with the module globals it appends to.
    [heap] holds every dictionary created so far; [entry] is the reference
    held by [self.entry], and [exact] and [prefix] list references. *)
Record state : Type := State {
  heap : list dict;
  count : nat;
  content : string;
  entry : nat;
  exact : list nat;
  prefix : list nat
}.

(** The object behind a reference. *)
Definition deref (h : list dict) (r : nat) : dict := default ∅ (h !! r).

(** [OCLCHandler.__init__] with the two global lists still empty. *)
Definition init : state :=
  {| heap := [∅]; count := 0; content := ""; entry := 0;
     exact := []; prefix := [] |}.

(** [name in ('type', 'id', 'url')]. *)
Definition tracked (name : string) : bool :=
  bool_decide (name ∈ ["type"; "id"; "url"]).

(** [self.entry[key] = value]. *)
Definition set_item (st : state) (key value : string) : state :=
  {| heap := <[entry st := <[key := value]> (deref (heap st) (entry st))]> (heap st);
     count := count st; content := content st; entry := entry st;
     exact := exact st; prefix := prefix st |}.

Definition append_exact (st : state) : state :=
  {| heap := heap st; count := count st; content := content st;
     entry := entry st; exact := exact st ++ [entry st]; prefix := prefix st |}.

Definition append_prefix (st : state) : state :=
  {| heap := heap st; count := count st; content := content st;
     entry := entry st; exact := exact st; prefix := prefix st ++ [entry st] |}.

(** ** The content handler *)

Definition startElement (name : string) (st : state) : state :=
  if bool_decide (name = "purl") then
    {| heap := heap st ++ [∅]; count := S (count st); content := "";
       entry := length (heap st); exact := exact st; prefix := prefix st |}
  else
    {| heap := heap st; count := count st; content := "";
       entry := entry st; exact := exact st; prefix := prefix st |}.

Definition characters (chunk : string) (st : state) : state :=
  {| heap := heap st; count := count st;
     content := String.append (content st) chunk;
     entry := entry st; exact := exact st; prefix := prefix st |}.

(** The [elif name == 'purl'] branch of [endElement]. *)
Definition end_purl (a : args) (st : state) : result state :=
  match deref (heap st) (entry st) !! "id" with
  | None => Raise (MissingField "id" (count st))
  | Some id =>
      match re_compile_anchored_i (base_url a) with
      | None => Raise (PatternOutsideModel (base_url a))
      | Some id_re =>
          match re_match id_re id with
          | None => Raise (PrefixMismatch (count st) id (base_url a))
          | Some _ =>
              let st := set_item st "id" (re_sub_empty id_re id) in
              match deref (heap st) (entry st) !! "url" with
              | None => Raise (MissingField "url" (count st))
              | Some url =>
                  match re_match url_re url with
                  | None => Raise (InvalidUrl (count st) url)
                  | Some _ =>
                      match deref (heap st) (entry st) !! "type" with
                      | None => Raise (MissingField "type" (count st))
                      | Some type =>
                          if bool_decide (type = "302") then
                            Ok (append_exact (set_item st "rule" "exact"))
                          else if bool_decide (type = "partial") then
                            Ok (append_prefix (set_item st "rule" "prefix"))
                          else Raise (UnknownType type (count st))
                      end
                  end
              end
          end
      end
  end.

Definition endElement (a : args) (name : string) (st : state) : result state :=
  if tracked name then
    if bool_decide (strip (content st) = "") then
      Raise (EmptyField name (count st))
    else Ok (set_item st name (strip (content st)))
  else if bool_decide (name = "purl") then end_purl a st
  else Ok st.

Definition handle (a : args) (ev : event) (st : state) : result state :=
  match ev with
  | StartElement name => Ok (startElement name st)
  | Characters chunk => Ok (characters chunk st)
  | EndElement name => endElement a name st
  end.

(** Delivery of a callback sequence; the first exception ends it. *)
Fixpoint feed (a : args) (evs : list event) (st : state) : result state :=
  match evs with
  | [] => Ok st
  | ev :: evs' => bind (handle a ev st) (feed a evs')
  end.

(** [sax.parse(args.xml_file)] on a well-formed document. *)
Definition parse (a : args) (xml : node) : result state :=
  feed a (events_of xml) init.

(** ** Composition of the output *)

(** [sorted(l, key=key, reverse=True)]: a stable sort, greatest key
    first; elements with equal keys keep their order in [l]. *)
Fixpoint insert_desc {A : Type} (key : A -> nat) (x : A) (l : list A) : list A :=
  match l with
  | [] => [x]
  | y :: l' => if key y <=? key x then x :: y :: l'
               else y :: insert_desc key x l'
  end.

Fixpoint sorted_desc {A : Type} (key : A -> nat) (l : list A) : list A :=
  match l with
  | [] => []
  | x :: l' => insert_desc key x (sorted_desc key l')
  end.

(** [d[key]] for a key the script has already stored. *)
Definition item (d : dict) (key : string) : string := default "" (d !! key).

Definition id_len (d : dict) : nat := len (item d "id").

(** Line 104: [exact + sorted(prefix, key=lambda k: len(k['id']),
    reverse=True)], as a list of references. *)
Definition entries (st : state) : list nat :=
  exact st ++ sorted_desc (fun r => id_len (deref (heap st) r)) (prefix st).

(** [header_template % (base_url, upper, base_url, lower, lower)]. *)
Definition header (a : args) : string :=
  String.concat ""
    [ "# PURL configuration for http://purl.brain-bican.org"; base_url a; nl;
      nl;
      "idspace: "; upper_idspace a; nl;
      "base_url: "; base_url a; nl;
      nl;
      "products:"; nl;
      "- "; lower_idspace a; ".owl: TODO"; nl;
      "- "; lower_idspace a; ".obo: TODO"; nl;
      nl;
      "term_browser: ontobee"; nl;
      "example_terms:"; nl;
      "- TODO"; nl;
      nl;
      "entries:"; nl ].

(** [entry_template % (entry['rule'], entry['id'], entry['url'])]. *)
Definition render (d : dict) : string :=
  String.concat ""
    [ "- "; item d "rule"; ": "; item d "id"; nl;
      "  replacement: "; item d "url"; nl;
      nl ].

(** ** The driver

    [main] after argument parsing and opening of the files: the result is
    the sequence of strings passed to [yaml_file.write], in order, and how
    the run ended. *)

Definition main (project : string) (xml : node) : list string * result unit :=
  let a := parse_args project in
  match parse a xml with
  | Raise e => ([], Raise e)
  | Ok st =>
      let es := entries st in
      if length es =? 0 then ([], Raise NoEntries)
      else (header a :: map (fun r => render (deref (heap st) r)) es, Ok tt)
  end.

(** ** The pipeline, one record at a time

    A reading of the script without shared dictionaries: the fields of one
    record are gathered in a dictionary of its own, the dictionary is
    validated, and the validated dictionaries are kept in the order of the
    records. *)

(** The record accumulator: the content buffer and the fields captured
    so far; [idx] is the number of the record. *)
Definition gather (idx : nat) (ev : event) (s : string * dict)
  : result (string * dict) :=
  match ev with
  | StartElement _ => Ok ("", s.2)
  | Characters chunk => Ok (s.1 +:+ chunk, s.2)
  | EndElement name =>
      if tracked name then
        if bool_decide (strip s.1 = "") then Raise (EmptyField name idx)
        else Ok (s.1, <[name := strip s.1]> s.2)
      else Ok s
  end.

Fixpoint gather_all (idx : nat) (evs : list event) (s : string * dict)
  : result (string * dict) :=
  match evs with
  | [] => Ok s
  | ev :: evs' => bind (gather idx ev s) (gather_all idx evs')
  end.

(** The record validator: the checks of [</purl>] on the gathered
    fields [d], and the dictionary that is collected when they pass. *)
Definition validate (a : args) (idx : nat) (d : dict) : result dict :=
  match d !! "id" with
  | None => Raise (MissingField "id" idx)
  | Some id =>
      match re_compile_anchored_i (base_url a) with
      | None => Raise (PatternOutsideModel (base_url a))
      | Some id_re =>
          match re_match id_re id with
          | None => Raise (PrefixMismatch idx id (base_url a))
          | Some stripped =>
              match d !! "url" with
              | None => Raise (MissingField "url" idx)
              | Some url =>
                  match re_match url_re url with
                  | None => Raise (InvalidUrl idx url)
                  | Some _ =>
                      match d !! "type" with
                      | None => Raise (MissingField "type" idx)
                      | Some type =>
                          if bool_decide (type = "302") then
                            Ok (<["rule" := "exact"]> (<["id" := stripped]> d))
                          else if bool_decide (type = "partial") then
                            Ok (<["rule" := "prefix"]> (<["id" := stripped]> d))
                          else Raise (UnknownType type idx)
                      end
                  end
              end
          end
      end
  end.

Definition is_exact (d : dict) : bool := bool_decide (d !! "type" = Some "302").

(** One record: its children are gathered from an empty buffer and an
    empty dictionary, then validated. *)
Definition one_purl (a : args) (idx : nat) (children : list node)
  : result dict :=
  match gather_all idx (concat (map events_of children)) ("", ∅) with
  | Raise e => Raise e
  | Ok s => validate a idx s.2
  end.

(** The [<purl>] elements of a document, in document order, each given
    by its children.  What is inside a [<purl>] belongs to that record. *)
Fixpoint records_of (n : node) : list (list node) :=
  match n with
  | Text _ => []
  | Element name children =>
      if bool_decide (name = "purl") then [children]
      else concat (map records_of children)
  end.

(** The records one after the other, numbered from [idx + 1]. *)
Fixpoint all_purls (a : args) (idx : nat) (rs : list (list node))
  : result (list dict) :=
  match rs with
  | [] => Ok []
  | children :: rs' =>
      match one_purl a (S idx) children with
      | Raise e => Raise e
      | Ok d =>
          match all_purls a (S idx) rs' with
          | Raise e => Raise e
          | Ok ds => Ok (d :: ds)
          end
      end
  end.

(** The output composer on validated dictionaries. *)
Definition compose (a : args) (ds : list dict) : list string * result unit :=
  let es := List.filter is_exact ds
            ++ sorted_desc id_len (List.filter (fun d => negb (is_exact d)) ds) in
  if length es =? 0 then ([], Raise NoEntries)
  else (header a :: map render es, Ok tt).

Definition pipeline (project : string) (xml : node) : list string * result unit :=
  let a := parse_args project in
  match all_purls a 0 (records_of xml) with
  | Raise e => ([], Raise e)
  | Ok ds => compose a ds
  end.

(** ** Documents and callback sequences *)

(** Induction on documents, with the hypothesis for every child. *)
Fixpoint node_induction (P : node -> Prop)
    (HText : forall chunk, P (Text chunk))
    (HElement : forall name children,
        Forall P children -> P (Element name children))
    (n : node) : P n :=
  match n with
  | Text chunk => HText chunk
  | Element name children =>
      HElement name children
        ((fix all (l : list node) : Forall P l :=
            match l with
            | [] => @List.Forall_nil _ P
            | x :: l' =>
                @List.Forall_cons _ P x l' (node_induction P HText HElement x) (all l')
            end) children)
  end.

(** The number of [<purl>] elements of a document. *)
Fixpoint count_records (n : node) : nat :=
  match n with
  | Text _ => 0
  | Element name children =>
      (if bool_decide (name = "purl") then 1 else 0)
      + sum_list (map count_records children)
  end.

Definition is_start_purl (ev : event) : bool :=
  match ev with
  | StartElement name => bool_decide (name = "purl")
  | _ => false
  end.

Definition is_end_purl (ev : event) : bool :=
  match ev with
  | EndElement name => bool_decide (name = "purl")
  | _ => false
  end.

Definition is_start (ev : event) : bool :=
  match ev with
  | StartElement _ => true
  | _ => false
  end.

(** How many records a callback sequence opens, and how many it closes. *)
Definition opened (evs : list event) : nat := length (List.filter is_start_purl evs).

Definition closed (evs : list event) : nat := length (List.filter is_end_purl evs).

(** Documents in the layout of an export: no [<purl>] inside a [<purl>],
    and [<id>], [<type>] and [<url>] inside a [<purl>] only.  [inside]
    tells whether the node is met inside a record. *)
Fixpoint regular (inside : bool) (n : node) : bool :=
  match n with
  | Text _ => true
  | Element name children =>
      if bool_decide (name = "purl") then
        negb inside && forallb (regular true) children
      else
        (inside || negb (tracked name)) && forallb (regular inside) children
  end.

(** A callback inside a record. *)
Definition within (ev : event) : bool :=
  negb (is_start_purl ev) && negb (is_end_purl ev).

(** A callback that neither opens nor closes a record and does not close
    an element called [name]. *)
Definition keeps_field (name : string) (ev : event) : bool :=
  match ev with
  | StartElement n => negb (bool_decide (n = "purl"))
  | Characters _ => true
  | EndElement n => negb (bool_decide (n = name)) && negb (bool_decide (n = "purl"))
  end.

(** The content buffer after a callback sequence, from the buffer before
    it. *)
Fixpoint buffer_after (evs : list event) (buf : string) : string :=
  match evs with
  | [] => buf
  | StartElement _ :: evs' => buffer_after evs' ""
  | Characters chunk :: evs' => buffer_after evs' (buf +:+ chunk)
  | EndElement _ :: evs' => buffer_after evs' buf
  end.

(** All character data of a callback sequence, concatenated. *)
Fixpoint text_of (evs : list event) : string :=
  match evs with
  | [] => ""
  | Characters chunk :: evs' => chunk +:+ text_of evs'
  | _ :: evs' => text_of evs'
  end.

(** ** States *)

(** [self.entry] always refers to an allocated dictionary. *)
Definition valid (st : state) : Prop := entry st < length (heap st).

(** Every listed reference is allocated. *)
Definition listed_valid (st : state) : Prop :=
  Forall (fun r => r < length (heap st)) (exact st ++ prefix st).

(** Two states that differ in the content buffer at most. *)
Definition same_store (st st' : state) : Prop :=
  heap st' = heap st /\ count st' = count st /\ entry st' = entry st /\
  exact st' = exact st /\ prefix st' = prefix st.

(** The handler state with the buffer and the current dictionary
    replaced. *)
Definition with_local (st : state) (c : string) (d : dict) : state :=
  {| heap := <[entry st := d]> (heap st); count := count st; content := c;
     entry := entry st; exact := exact st; prefix := prefix st |}.

(** The state after a record whose validated dictionary is [d]. *)
Definition collected (st : state) (d : dict) : state :=
  {| heap := heap st ++ [d]; count := S (count st); content := content st;
     entry := length (heap st);
     exact := exact st ++ (if is_exact d then [length (heap st)] else []);
     prefix := prefix st ++ (if is_exact d then [] else [length (heap st)]) |}.

Fixpoint collect_all (st : state) (ds : list dict) : state :=
  match ds with
  | [] => st
  | d :: ds' => collect_all (collected st d) ds'
  end.

(** ** Notions used in the statements *)

(** The order of [sorted_desc]: no smaller key before a greater one. *)
Definition desc {A : Type} (key : A -> nat) (x y : A) : Prop := key y <= key x.

(** Removal of the literal text [t] from the front of [s]. *)
Fixpoint drop_lits (ic : bool) (t s : string) : option string :=
  match t with
  | EmptyString => Some s
  | String x t' =>
      match s with
      | String c s' =>
          if atom_matches ic (Lit x) c then drop_lits ic t' s' else None
      | EmptyString => None
      end
  end.

(** Pattern text in which no character is special. *)
Fixpoint plain (text : string) : bool :=
  match text with
  | EmptyString => true
  | String c text' => negb (re_special c) && plain text'
  end.

(** [s] begins with [pre], letter case aside. *)
Definition begins_with_ci (pre s : string) : Prop :=
  exists occ rest, s = occ +:+ rest /\ lower occ = lower pre.

(** A URL that is 'http://', 'https://' or 'ftp://' followed by at least
    one character. *)
Definition scheme_and_more (url : string) : Prop :=
  exists scheme rest,
    scheme ∈ ["http"; "https"; "ftp"] /\
    url = scheme +:+ "://" +:+ rest /\ rest <> "".

(** The same, where the first character after '://' is not a line feed. *)
Definition scheme_and_more_on_line (url : string) : Prop :=
  exists scheme c rest,
    scheme ∈ ["http"; "https"; "ftp"] /\
    url = scheme +:+ "://" +:+ String c rest /\ c <> line_feed.

Fixpoint all_chars (p : ascii -> bool) (s : string) : bool :=
  match s with
  | EmptyString => true
  | String c s' => p c && all_chars p s'
  end.

(** The texts that a regular expression denotes. *)
Fixpoint lang (ic : bool) (r : regex) (m : string) : Prop :=
  match r with
  | Eps => m = ""
  | Atom a => exists c, m = String c "" /\ atom_matches ic a c = true
  | Seq r1 r2 => exists m1 m2, m = m1 +:+ m2 /\ lang ic r1 m1 /\ lang ic r2 m2
  | Alt r1 r2 => lang ic r1 m \/ lang ic r2 m
  | Opt r1 => lang ic r1 m \/ m = ""
  | Plus a => m <> "" /\ all_chars (atom_matches ic a) m = true
  end.

(** ** Sample documents *)

Definition field (name value : string) : node := Element name [Text value].

(** The children of a [<purl>] element in the layout of a PURL.org
    export. *)
Definition purl_fields (id type url : string) : list node :=
  [ field "id" id; field "type" type;
    Element "maintainers" [field "uid" "ALANRUTTENBERG"];
    Element "target" [field "url" url] ].

Definition purl (id type url : string) : node :=
  Element "purl" (purl_fields id type url).

Definition two_records : node :=
  Element "purls"
    [ purl "/obo/foo/short" "partial" "http://example.org/s";
      purl "/obo/foo/branches/" "302" "http://example.org/b" ].

Definition one_record (id type url : string) : node :=
  Element "purls" [purl id type url].

Definition state_of (r : result state) : state :=
  match r with
  | Ok st => st
  | Raise _ => init
  end.

(** The state in which the [</purl>] of a first record with the given
    children is handled. *)
Definition at_end_purl (project : string) (children : list node) : state :=
  state_of
    (feed (parse_args project)
       (StartElement "purls" :: StartElement "purl"
          :: concat (map events_of children))
       init).

Definition twice_id : node :=
  Element "purls"
    [ Element "purl"
        [ field "id" "/obo/foo/first"; field "type" "302";
          field "id" "/obo/foo/second"; field "url" "http://example.org/2" ] ].

(** A [<purl>] inside a [<purl>], which [regular] excludes.  The outer
    end tag validates the dictionary of the inner record a second time:
    it is listed twice, stripped twice, and its rule is the one of the
    last validation. *)
Definition nested : node :=
  Element "purls"
    [ Element "purl"
        [ Element "purl"
            [ field "id" "/obo/foo/obo/foo/x"; field "type" "partial";
              field "url" "http://example.org/x" ];
          field "type" "302" ];
      purl "/obo/foo/longer" "partial" "http://example.org/l" ].

(** ** Notions used in the further properties *)

(** A dictionary that [main] can sort and format: it has an id, a url
    and a type, and its rule is 'exact' or 'prefix'. *)
Definition complete (d : dict) : Prop :=
  is_Some (d !! "id") /\ is_Some (d !! "url") /\ is_Some (d !! "type") /\
  (d !! "rule" = Some "exact" \/ d !! "rule" = Some "prefix").

Definition is_chars (ev : event) : bool :=
  match ev with
  | Characters _ => true
  | _ => false
  end.

Definition is_text (n : node) : bool :=
  match n with
  | Text _ => true
  | Element _ _ => false
  end.

(** The character data among the children of an element. *)
Fixpoint text_of_nodes (children : list node) : string :=
  match children with
  | [] => ""
  | Text chunk :: rest => chunk +:+ text_of_nodes rest
  | Element _ _ :: rest => text_of_nodes rest
  end.

(** Documents whose [<id>], [<type>] and [<url>] elements hold text
    only. *)
Fixpoint leaf_fields (n : node) : bool :=
  match n with
  | Text _ => true
  | Element name children =>
      if tracked name then forallb is_text children
      else forallb leaf_fields children
  end.

(** The tracked elements below a node, in document order, each with its
    text. *)
Fixpoint fields_in (n : node) : list (string * string) :=
  match n with
  | Text _ => []
  | Element name children =>
      if tracked name then [(name, text_of_nodes children)]
      else concat (map fields_in children)
  end.

(** The fields of a record stored one after the other, each value
    stripped; an empty one is an error. *)
Fixpoint capture (idx : nat) (fs : list (string * string)) (d : dict)
  : result dict :=
  match fs with
  | [] => Ok d
  | (name, value) :: fs' =>
      if bool_decide (strip value = "") then Raise (EmptyField name idx)
      else capture idx fs' (<[name := strip value]> d)
  end.

(** The invariant of the run: the current reference and the listed
    ones are allocated, and every listed dictionary is complete. *)
Definition sound (st : state) : Prop :=
  valid st /\
  Forall (fun r => r < length (heap st) /\ complete (deref (heap st) r))
    (exact st ++ prefix st).

(** The records of a small export in another layout: free text, a
    wrapper element, fields in another order, text in two chunks. *)
Definition two_records_bare : node :=
  Element "root"
    [ Text "free text";
      Element "group"
        [ Element "purl"
            [ Text nl; field "type" " partial";
              Element "id" [Text "/obo/foo"; Text "/short"];
              field "url" "http://example.org/s" ] ];
      Element "purl"
        [ field "url" "http://example.org/b"; field "type" "302";
          field "id" "/obo/foo/branches/" ] ].

(** Five records: prefix entries of two id lengths, two of them of the
    same length, with exact entries in between. *)
Definition five_records : node :=
  Element "purls"
    [ purl "/obo/foo/a/" "partial" "http://example.org/a";
      purl "/obo/foo/exact1" "302" "http://example.org/1";
      purl "/obo/foo/long/path/" "partial" "http://example.org/l";
      purl "/obo/foo/b/" "partial" "http://example.org/b";
      purl "/obo/foo/exact2" "302" "http://example.org/2" ].


(** Pattern text made of ordinary characters and dots. *)
Fixpoint plain_or_dot (text : string) : bool :=
  match text with
  | EmptyString => true
  | String c text' =>
      (bool_decide (c = "."%char) || negb (re_special c)) && plain_or_dot text'
  end.

(** The validated dictionaries of the records of a document, when all of
    them pass. *)
Definition validated (project : string) (xml : node) : list dict :=
  match all_purls (parse_args project) 0 (records_of xml) with
  | Ok ds => ds
  | Raise _ => []
  end.

(** Three records, and the same records with the two prefix records
    exchanged. *)
Definition short_first : node :=
  Element "purls"
    [ purl "/obo/foo/a/" "partial" "http://example.org/a";
      purl "/obo/foo/exact1" "302" "http://example.org/1";
      purl "/obo/foo/long/path/" "partial" "http://example.org/l" ].

Definition long_first : node :=
  Element "purls"
    [ purl "/obo/foo/long/path/" "partial" "http://example.org/l";
      purl "/obo/foo/exact1" "302" "http://example.org/1";
      purl "/obo/foo/a/" "partial" "http://example.org/a" ].

(** * Facts *)

(** ** Facts about [sorted_desc] *)

Section Sorted.
Context {A : Type} (key : A -> nat).

Lemma insert_desc_perm x l : insert_desc key x l ≡ₚ x :: l.
Proof.
  induction l as [|y l IH]; simpl; [done|].
  destruct (key y <=? key x); [done|].
  rewrite IH. apply Permutation_swap.
Qed.

Lemma sorted_desc_perm l : sorted_desc key l ≡ₚ l.
Proof.
  induction l as [|x l IH]; simpl; [done|].
  by rewrite insert_desc_perm, IH.
Qed.

Lemma insert_desc_sorted x l :
  StronglySorted (desc key) l -> StronglySorted (desc key) (insert_desc key x l).
Proof.
  induction 1 as [|y l Hl IH Hy]; simpl.
  - repeat constructor.
  - destruct (key y <=? key x) eqn:E.
    + apply Nat.leb_le in E. constructor; [by constructor|].
      constructor; [exact E|].
      eapply Forall_impl; [exact Hy|]. unfold desc. intros z Hz. lia.
    + apply Nat.leb_gt in E. constructor; [exact IH|].
      rewrite insert_desc_perm. constructor; [unfold desc; lia | exact Hy].
Qed.

Lemma sorted_desc_sorted l : StronglySorted (desc key) (sorted_desc key l).
Proof.
  induction l as [|x l IH]; simpl; [constructor|].
  by apply insert_desc_sorted.
Qed.



End Sorted.

Lemma insert_desc_map {A B : Type} (f : A -> B) (key : B -> nat) x l :
  map f (insert_desc (fun a => key (f a)) x l) = insert_desc key (f x) (map f l).
Proof.
  induction l as [|y l IH]; simpl; [done|].
  destruct (key (f y) <=? key (f x)); simpl; [done|]. by rewrite IH.
Qed.

Lemma sorted_desc_map {A B : Type} (f : A -> B) (key : B -> nat) l :
  map f (sorted_desc (fun a => key (f a)) l) = sorted_desc key (map f l).
Proof.
  induction l as [|x l IH]; simpl; [done|].
  by rewrite insert_desc_map, IH.
Qed.

(** ** Facts about callback sequences *)

Lemma opened_app e1 e2 : opened (e1 ++ e2) = opened e1 + opened e2.
Proof. unfold opened. by rewrite List.filter_app, length_app. Qed.

Lemma closed_app e1 e2 : closed (e1 ++ e2) = closed e1 + closed e2.
Proof. unfold closed. by rewrite List.filter_app, length_app. Qed.

Lemma opened_concat l : opened (concat l) = sum_list (map opened l).
Proof.
  induction l as [|x l IH]; simpl; [done|]. by rewrite opened_app, IH.
Qed.

Lemma closed_concat l : closed (concat l) = sum_list (map closed l).
Proof.
  induction l as [|x l IH]; simpl; [done|]. by rewrite closed_app, IH.
Qed.

Lemma sum_list_map_ext {A : Type} (f g : A -> nat) l :
  Forall (fun x => f x = g x) l -> sum_list (map f l) = sum_list (map g l).
Proof. induction 1 as [|x l Hx _ IH]; simpl; [done|]. by rewrite Hx, IH. Qed.

Lemma opened_events_of n : opened (events_of n) = count_records n.
Proof.
  induction n as [chunk|name children IH] using node_induction; [done|].
  cbn [events_of count_records].
  change (StartElement name :: ?l) with ([StartElement name] ++ l).
  rewrite !opened_app, opened_concat, map_map.
  rewrite (sum_list_map_ext _ count_records) by exact IH.
  unfold opened; simpl. case_bool_decide; simpl; lia.
Qed.

Lemma closed_events_of n : closed (events_of n) = count_records n.
Proof.
  induction n as [chunk|name children IH] using node_induction; [done|].
  cbn [events_of count_records].
  change (StartElement name :: ?l) with ([StartElement name] ++ l).
  rewrite !closed_app, closed_concat, map_map.
  rewrite (sum_list_map_ext _ count_records) by exact IH.
  unfold closed; simpl. case_bool_decide; simpl; lia.
Qed.

(** ** Facts about [feed] *)

Lemma feed_app a e1 e2 st :
  feed a (e1 ++ e2) st = bind (feed a e1 st) (feed a e2).
Proof.
  revert st. induction e1 as [|ev e1 IH]; intros st; simpl; [done|].
  destruct (handle a ev st); simpl; [apply IH | done].
Qed.

Lemma feed_app_Ok a e1 e2 st st2 :
  feed a (e1 ++ e2) st = Ok st2 ->
  exists st1, feed a e1 st = Ok st1 /\ feed a e2 st1 = Ok st2.
Proof.
  rewrite feed_app. destruct (feed a e1 st) as [st1|]; simpl; [eauto | done].
Qed.

(** What one successful [</purl>] does to the program state. *)
Lemma end_purl_Ok a st st' :
  end_purl a st = Ok st' ->
  exists id_re id,
    re_compile_anchored_i (base_url a) = Some id_re /\
    deref (heap st) (entry st) !! "id" = Some id /\
    let st1 := set_item st "id" (re_sub_empty id_re id) in
    (st' = append_exact (set_item st1 "rule" "exact") \/
     st' = append_prefix (set_item st1 "rule" "prefix")).
Proof.
  unfold end_purl. intros H.
  destruct (deref (heap st) (entry st) !! "id") as [id|]; [|done].
  destruct (re_compile_anchored_i (base_url a)) as [id_re|]; [|done].
  exists id_re, id. split; [done|]. split; [done|].
  repeat case_match; simplify_eq; auto.
Qed.

Lemma tracked_not_purl name : tracked name = true -> name <> "purl".
Proof. intros H ->. done. Qed.

(** Case analysis on one successful callback [H : handle a ev st = Ok st']. *)
Ltac handle_cases ev H :=
  let name := fresh "name" in
  let chunk := fresh "chunk" in
  let Htr := fresh "Htr" in
  destruct ev as [name|chunk|name]; simpl in H;
  [ injection H as <-; unfold startElement; case_bool_decide
  | injection H as <-
  | unfold endElement in H; destruct (tracked name) eqn:Htr;
    [ apply tracked_not_purl in Htr;
      case_bool_decide; [discriminate | injection H as <-]
    | case_bool_decide;
      [ apply end_purl_Ok in H as (? & ? & _ & _ & [-> | ->])
      | injection H as <- ] ] ].

Lemma handle_count a ev st st' :
  handle a ev st = Ok st' ->
  count st' = count st + (if is_start_purl ev then 1 else 0).
Proof.
  intros H. handle_cases ev H; simpl;
    rewrite ?bool_decide_eq_true_2, ?bool_decide_eq_false_2 by done; lia.
Qed.

Lemma handle_collected a ev st st' :
  handle a ev st = Ok st' ->
  length (exact st') + length (prefix st')
  = length (exact st) + length (prefix st) + (if is_end_purl ev then 1 else 0).
Proof.
  intros H. handle_cases ev H; simpl;
    rewrite ?bool_decide_eq_true_2, ?bool_decide_eq_false_2 by done;
    rewrite ?length_app; simpl; try lia.
Qed.

Lemma feed_count a evs st st' :
  feed a evs st = Ok st' -> count st' = count st + opened evs.
Proof.
  revert st. induction evs as [|ev evs IH]; intros st H; simpl in H.
  - injection H as <-. unfold opened. simpl. lia.
  - destruct (handle a ev st) as [st1|] eqn:E; [|done]. simpl in H.
    apply IH in H. apply handle_count in E.
    change (ev :: evs) with ([ev] ++ evs). rewrite opened_app.
    unfold opened at 1. simpl. destruct (is_start_purl ev); simpl; lia.
Qed.

Lemma feed_collected a evs st st' :
  feed a evs st = Ok st' ->
  length (exact st') + length (prefix st')
  = length (exact st) + length (prefix st) + closed evs.
Proof.
  revert st. induction evs as [|ev evs IH]; intros st H; simpl in H.
  - injection H as <-. unfold closed. simpl. lia.
  - destruct (handle a ev st) as [st1|] eqn:E; [|done]. simpl in H.
    apply IH in H. apply handle_collected in E.
    change (ev :: evs) with ([ev] ++ evs). rewrite closed_app.
    unfold closed at 1. simpl. destruct (is_end_purl ev); simpl; lia.
Qed.

Lemma same_store_refl st : same_store st st.
Proof. by repeat split. Qed.

Lemma same_store_trans st1 st2 st3 :
  same_store st1 st2 -> same_store st2 st3 -> same_store st1 st3.
Proof. unfold same_store. intros (?&?&?&?&?) (?&?&?&?&?). repeat split; congruence. Qed.

(** ** The reference in [self.entry] *)

Lemma valid_init : valid init.
Proof. unfold valid. simpl. lia. Qed.

Lemma captured_valid st key value :
  deref (heap st) (entry st) !! key = Some value -> valid st.
Proof.
  unfold deref, valid. intros H.
  destruct (heap st !! entry st) as [d|] eqn:E; [by eapply lookup_lt_Some|done].
Qed.

Lemma deref_set_item st key value :
  valid st ->
  deref (heap (set_item st key value)) (entry st)
  = <[key := value]> (deref (heap st) (entry st)).
Proof.
  intros H. unfold deref at 1. simpl.
  by rewrite list_lookup_insert_eq by exact H.
Qed.

Lemma valid_set_item st key value : valid st -> valid (set_item st key value).
Proof. unfold valid. simpl. by rewrite length_insert. Qed.

Lemma handle_valid a ev st st' : handle a ev st = Ok st' -> valid st -> valid st'.
Proof.
  intros H. unfold valid. handle_cases ev H; simpl;
    rewrite ?length_app, ?length_insert; simpl; lia.
Qed.

Lemma feed_valid a evs st st' : feed a evs st = Ok st' -> valid st -> valid st'.
Proof.
  revert st. induction evs as [|ev evs IH]; intros st H Hv; simpl in H.
  - by injection H as <-.
  - destruct (handle a ev st) as [st1|] eqn:E; [|done].
    eapply IH; [exact H|]. by eapply handle_valid.
Qed.

(** ** Validation of a completed record *)

(** The outcome of [</purl>] in terms of the dictionary [d] that
    [self.entry] holds when the element ends. *)
Lemma end_purl_unfold a st :
  valid st ->
  let d := deref (heap st) (entry st) in
  end_purl a st =
  match d !! "id" with
  | None => Raise (MissingField "id" (count st))
  | Some id =>
      match re_compile_anchored_i (base_url a) with
      | None => Raise (PatternOutsideModel (base_url a))
      | Some id_re =>
          match re_match id_re id with
          | None => Raise (PrefixMismatch (count st) id (base_url a))
          | Some stripped =>
              match d !! "url" with
              | None => Raise (MissingField "url" (count st))
              | Some url =>
                  match re_match url_re url with
                  | None => Raise (InvalidUrl (count st) url)
                  | Some _ =>
                      match d !! "type" with
                      | None => Raise (MissingField "type" (count st))
                      | Some type =>
                          if bool_decide (type = "302") then
                            Ok (append_exact
                                  (set_item (set_item st "id" stripped) "rule" "exact"))
                          else if bool_decide (type = "partial") then
                            Ok (append_prefix
                                  (set_item (set_item st "id" stripped) "rule" "prefix"))
                          else Raise (UnknownType type (count st))
                      end
                  end
              end
          end
      end
  end.
Proof.
  intros Hv d. unfold end_purl. fold d.
  destruct (d !! "id") as [id|]; [|done].
  destruct (re_compile_anchored_i (base_url a)) as [id_re|]; [|done].
  unfold re_sub_empty.
  destruct (re_match id_re id) as [stripped|]; [|done].
  change (entry (set_item st "id" stripped)) with (entry st).
  rewrite deref_set_item by done. fold d.
  rewrite !lookup_insert_ne by done. done.
Qed.

(** The dictionary that a successful [</purl>] leaves in [self.entry]. *)
Lemma deref_collected st stripped label :
  valid st ->
  deref (heap (set_item (set_item st "id" stripped) "rule" label)) (entry st)
  = <["rule" := label]> (<["id" := stripped]> (deref (heap st) (entry st))).
Proof.
  intros Hv.
  change (entry st) with (entry (set_item st "id" stripped)) at 1.
  rewrite deref_set_item by by apply valid_set_item.
  change (entry (set_item st "id" stripped)) with (entry st).
  by rewrite deref_set_item.
Qed.

Lemma end_purl_Raise_index a st id_re e :
  re_compile_anchored_i (base_url a) = Some id_re ->
  end_purl a st = Raise e -> error_index e = Some (count st).
Proof.
  unfold end_purl. intros ->. intros H.
  repeat case_match; simplify_eq; done.
Qed.

(** ** Facts about text and the two patterns *)

Lemma append_cons c s t : String c s +:+ t = String c (s +:+ t).
Proof. done. Qed.

Lemma append_nil t : "" +:+ t = t.
Proof. done. Qed.

Lemma append_assoc s t u : (s +:+ t) +:+ u = s +:+ t +:+ u.
Proof. induction s as [|c s IH]; [done|]. by rewrite !append_cons, IH. Qed.

Lemma len_append s t : len (s +:+ t) = len s + len t.
Proof. induction s as [|c s IH]; [done|]. rewrite append_cons. simpl. by rewrite IH. Qed.

Lemma lower_append s t : lower (s +:+ t) = lower s +:+ lower t.
Proof.
  induction s as [|c s IH]; [done|].
  rewrite append_cons. unfold lower in *. simpl. by rewrite IH, append_cons.
Qed.

Lemma match_lits {A : Type} ic t s (k : string -> option A) :
  match_re ic (lits t) s k
  = match drop_lits ic t s with Some r => k r | None => None end.
Proof.
  revert s. induction t as [|x t IH]; intros s; [done|].
  cbn [lits match_re drop_lits].
  destruct s as [|c s]; [done|].
  destruct (atom_matches ic (Lit x) c); [apply IH | done].
Qed.

Lemma drop_lits_ci t s r :
  drop_lits true t s = Some r <-> exists occ, s = occ +:+ r /\ lower occ = lower t.
Proof.
  revert s. induction t as [|x t IH]; intros s; simpl.
  - split.
    + intros [= ->]. by exists "".
    + intros ([|c occ] & -> & H); [done | discriminate H].
  - destruct s as [|c s].
    + split; [done|]. intros ([|c occ] & H1 & H2); discriminate.
    + case_bool_decide as E.
      * rewrite IH. split.
        -- intros (occ & -> & H). exists (String c occ). split; [done|].
           unfold lower in *. simpl. by rewrite H, E.
        -- intros ([|c' occ] & H1 & H2); [discriminate H2|].
           rewrite append_cons in H1. injection H1 as <- ->.
           injection H2 as _ H2. by exists occ.
      * split; [done|].
        intros ([|c' occ] & H1 & H2); [discriminate H2|].
        rewrite append_cons in H1. injection H1 as <- ->.
        injection H2 as H2 _. by destruct E.
Qed.

Lemma special_lower_char c : re_special (lower_char c) = re_special c.
Proof. by destruct c as [[] [] [] [] [] [] [] []]. Qed.

Lemma plain_lower text : plain (lower text) = plain text.
Proof.
  induction text as [|c text IH]; [done|].
  unfold lower in *. simpl. by rewrite special_lower_char, IH.
Qed.

Lemma re_parse_plain text : plain text = true -> re_parse text = Some (lits text).
Proof.
  induction text as [|c text IH]; [done|]. simpl.
  intros [Hc Ht]%andb_prop. rewrite (IH Ht).
  apply negb_true_iff in Hc.
  case_bool_decide as E; [by subst c|]. by rewrite Hc.
Qed.

(** The base pattern of a project whose id has no special character is
    the literal text of [base_url]. *)
Lemma base_pattern_plain project :
  plain project = true ->
  re_compile_anchored_i (base_url (parse_args project))
  = Some (Pattern (lits (base_url (parse_args project))) true).
Proof.
  intros H. unfold re_compile_anchored_i. rewrite re_parse_plain; [done|].
  unfold parse_args, base_url. rewrite !append_cons, append_nil.
  cbn [plain re_special negb andb]. by rewrite plain_lower.
Qed.

Lemma match_base_plain text id rest :
  re_match (Pattern (lits text) true) id = Some rest
  <-> exists occ, id = occ +:+ rest /\ lower occ = lower text.
Proof.
  unfold re_match. simpl. rewrite match_lits, <- drop_lits_ci.
  by destruct (drop_lits true text id).
Qed.

Lemma no_match_base_plain text id :
  re_match (Pattern (lits text) true) id = None <-> ~ begins_with_ci text id.
Proof.
  unfold begins_with_ci. split.
  - intros H (occ & rest & H1 & H2).
    assert (re_match (Pattern (lits text) true) id = Some rest) as H'
      by (apply match_base_plain; eauto).
    congruence.
  - intros H. destruct (re_match _ id) as [rest|] eqn:E; [|done].
    apply match_base_plain in E as (occ & H1 & H2). destruct H; eauto.
Qed.

Lemma is_Some_orelse {A : Type} (o1 o2 : option A) :
  is_Some (match o1 with Some x => Some x | None => o2 end)
  <-> is_Some o1 \/ is_Some o2.
Proof.
  destruct o1; split; eauto. intros [[? ?]|?]; [done|done].
Qed.

Lemma match_plus_spec {A : Type} ic a s (k : string -> option A) :
  is_Some (match_plus ic a s k)
  <-> exists m rest, s = m +:+ rest /\ lang ic (Plus a) m /\ is_Some (k rest).
Proof.
  induction s as [|c s IH]; simpl.
  - split; [by intros [? ?]|].
    intros ([|c m] & rest & H & [Hm _] & _); [done | discriminate H].
  - destruct (atom_matches ic a c) eqn:E.
    + rewrite is_Some_orelse, IH. split.
      * intros [(m & rest & -> & [Hm Hall] & Hk) | Hk].
        -- exists (String c m), rest. rewrite append_cons. simpl. by rewrite E, Hall.
        -- exists (String c ""), s. simpl. by rewrite E.
      * intros ([|c' m] & rest & H & [Hm Hall] & Hk); [done|].
        rewrite append_cons in H. injection H as <- ->.
        simpl in Hall. apply andb_prop in Hall as [_ Hall].
        destruct m as [|c'' m]; [by right|].
        left. exists (String c'' m), rest. done.
    + split; [by intros [? ?]|].
      intros ([|c' m] & rest & H & [Hm Hall] & Hk); [done|].
      rewrite append_cons in H. injection H as <- ->.
      simpl in Hall. by rewrite E in Hall.
Qed.

(** The backtracking matcher finds a match exactly when the subject has a
    prefix in the language of the expression after which the
    continuation succeeds. *)
Lemma match_re_spec {A : Type} ic r s (k : string -> option A) :
  is_Some (match_re ic r s k)
  <-> exists m rest, s = m +:+ rest /\ lang ic r m /\ is_Some (k rest).
Proof.
  revert s k. induction r as [|a|r1 IH1 r2 IH2|r1 IH1 r2 IH2|r1 IH1|a];
    intros s k; cbn [match_re].
  - split.
    + intros Hk. by exists "", s.
    + by intros (m & rest & -> & -> & Hk).
  - destruct s as [|c s].
    + split; [by intros [? ?]|].
      intros (m & rest & H & (c & -> & _) & _). discriminate H.
    + destruct (atom_matches ic a c) eqn:E.
      * split.
        -- intros Hk. exists (String c ""), s. simpl. eauto.
        -- intros (m & rest & H & (c' & -> & _) & Hk).
           rewrite append_cons, append_nil in H. by injection H as _ ->.
      * split; [by intros [? ?]|].
        intros (m & rest & H & (c' & -> & Hc) & Hk).
        rewrite append_cons in H. injection H as <- _. congruence.
  - rewrite IH1. split.
    + intros (m1 & rest1 & -> & H1 & H2).
      apply IH2 in H2 as (m2 & rest & -> & H2 & Hk).
      exists (m1 +:+ m2), rest. rewrite append_assoc. simpl. eauto 10.
    + intros (m & rest & -> & (m1 & m2 & -> & H1 & H2) & Hk).
      exists m1, (m2 +:+ rest). rewrite append_assoc. split; [done|].
      split; [done|]. apply IH2. eauto.
  - rewrite is_Some_orelse, IH1, IH2. simpl. split.
    + intros [(m & rest & -> & H & Hk) | (m & rest & -> & H & Hk)]; eauto 10.
    + intros (m & rest & -> & [H | H] & Hk); eauto 10.
  - rewrite is_Some_orelse, IH1. simpl. split.
    + intros [(m & rest & -> & H & Hk) | Hk]; [eauto 10|]. exists "", s. eauto.
    + intros (m & rest & -> & [H | ->] & Hk); eauto 10.
  - apply match_plus_spec.
Qed.

Lemma lang_lits t m : lang false (lits t) m <-> m = t.
Proof.
  revert m. induction t as [|x t IH]; intros m; simpl; [done|]. split.
  - intros (m1 & m2 & -> & (c & -> & Hc) & H2). apply IH in H2 as ->.
    apply bool_decide_eq_true in Hc as ->. done.
  - intros ->. exists (String x ""), t. split; [done|]. split; [|by apply IH].
    exists x. by rewrite bool_decide_eq_true_2.
Qed.

Lemma lang_url_re m :
  lang false (body url_re) m
  <-> exists scheme w,
        scheme ∈ ["http"; "https"; "ftp"] /\ m = scheme +:+ "://" +:+ w /\
        lang false (Plus AnyChar) w.
Proof.
  unfold url_re. cbn [body lang]. setoid_rewrite lang_lits. split.
  - intros (m1 & m2 & -> & [(h & o & -> & -> & Ho) | ->] & (? & w & -> & -> & Hw)).
    + destruct Ho as [(c & -> & Hc) | ->].
      * apply bool_decide_eq_true in Hc as <-.
        exists "https", w. split; [repeat constructor|]. done.
      * exists "http", w. split; [repeat constructor|]. done.
    + exists "ftp", w. split; [repeat constructor|]. done.
  - intros (scheme & w & Hs & -> & Hw).
    exists scheme, ("://" +:+ w). split; [done|]. split; [|by eauto].
    apply elem_of_cons in Hs as [-> | Hs]. 
    { left. exists "http", "". split; [done|]. split; [done|]. by right. }
    apply elem_of_cons in Hs as [-> | Hs].
    { left. exists "http", "s". split; [done|]. split; [done|]. left. by exists "s"%char. }
    apply list_elem_of_singleton in Hs as ->. by right.
Qed.

Lemma url_re_spec url :
  is_Some (re_match url_re url) <-> scheme_and_more_on_line url.
Proof.
  unfold re_match, scheme_and_more_on_line. rewrite match_re_spec.
  setoid_rewrite lang_url_re. split.
  - intros (m & rest & -> & (scheme & w & Hs & -> & [Hw Hall]) & _).
    destruct w as [|c w]; [done|]. simpl in Hall.
    apply andb_prop in Hall as [Hc _]. apply negb_true_iff, bool_decide_eq_false in Hc.
    exists scheme, c, (w +:+ rest). split; [done|]. split; [|done].
    by rewrite !append_assoc.
  - intros (scheme & c & rest & Hs & -> & Hc).
    exists (scheme +:+ "://" +:+ String c ""), rest. split.
    { by rewrite !append_assoc. }
    split; [|done]. exists scheme, (String c ""). split; [done|]. split; [done|].
    split; [done|]. simpl. rewrite bool_decide_eq_false_2 by done. done.
Qed.

Lemma len_lower s : len (lower s) = len s.
Proof. induction s as [|c s IH]; [done|]. unfold lower in *. simpl. by rewrite IH. Qed.

Lemma append_inv_head s t u : s +:+ t = s +:+ u -> t = u.
Proof.
  induction s as [|c s IH]; [done|]. rewrite !append_cons. intros [= H]. auto.
Qed.

(** Two ways of cutting one text: the shorter head is a head of the
    longer one. *)
Lemma append_eq_split s1 t1 s2 t2 :
  s1 +:+ t1 = s2 +:+ t2 -> len s1 <= len s2 ->
  exists u, s2 = s1 +:+ u /\ t1 = u +:+ t2.
Proof.
  revert s2. induction s1 as [|c s1 IH]; intros s2 H Hlen.
  - exists s2. by rewrite append_nil in *.
  - destruct s2 as [|c2 s2]; [simpl in Hlen; lia|].
    rewrite !append_cons in H. injection H as <- H.
    destruct (IH s2 H) as (u & -> & ->); [simpl in Hlen; lia|].
    by exists u.
Qed.

Lemma base_url_nonempty project : 0 < len (base_url (parse_args project)).
Proof. unfold parse_args, base_url. rewrite len_append. simpl. lia. Qed.

(** For a project id without special characters the check at lines
    156-161 is a prefix test, letter case aside, and the substitution
    removes the one leading occurrence that matched. *)
Lemma base_path_check_plain project :
  plain project = true ->
  let base := base_url (parse_args project) in
  exists id_re,
    re_compile_anchored_i base = Some id_re /\
    (forall id, re_match id_re id = None <-> ~ begins_with_ci base id) /\
    (forall id rest,
        re_match id_re id = Some rest
        <-> exists occ, id = occ +:+ rest /\ lower occ = lower base) /\
    (forall id rest,
        re_match id_re id = Some rest -> re_sub_empty id_re id = rest).
Proof.
  intros Hp base. eexists. split; [by apply base_pattern_plain|].
  split; [apply no_match_base_plain|]. split; [apply match_base_plain|].
  intros id rest H. unfold re_sub_empty. by rewrite H.
Qed.

(** ** The content buffer and the captured fields *)

Lemma append_empty_r s : s +:+ "" = s.
Proof. induction s as [|c s IH]; [done|]. by rewrite append_cons, IH. Qed.

Lemma buffer_after_app e1 e2 buf :
  buffer_after (e1 ++ e2) buf = buffer_after e2 (buffer_after e1 buf).
Proof.
  revert buf. induction e1 as [|[n|chunk|n] e1 IH]; intros buf; simpl; auto.
Qed.

Lemma buffer_after_no_start evs buf :
  forallb (fun ev => negb (is_start ev)) evs = true ->
  buffer_after evs buf = buf +:+ text_of evs.
Proof.
  revert buf. induction evs as [|[n|chunk|n] evs IH]; intros buf H; simpl in *.
  - by rewrite append_empty_r.
  - done.
  - by rewrite IH, append_assoc.
  - by apply IH.
Qed.

Lemma handle_content a ev st st' :
  handle a ev st = Ok st' -> content st' = buffer_after [ev] (content st).
Proof. intros H. by handle_cases ev H. Qed.

Lemma feed_content a evs st st' :
  feed a evs st = Ok st' -> content st' = buffer_after evs (content st).
Proof.
  revert st. induction evs as [|ev evs IH]; intros st H; simpl in H.
  - by injection H as <-.
  - destruct (handle a ev st) as [st1|] eqn:E; [|done]. simpl in H.
    apply IH in H. apply handle_content in E.
    change (ev :: evs) with ([ev] ++ evs). by rewrite buffer_after_app, <- E.
Qed.

(** The end of a tracked element stores the stripped buffer. *)
Lemma end_tracked a name st st' :
  tracked name = true -> valid st ->
  endElement a name st = Ok st' ->
  strip (content st) <> "" /\
  st' = set_item st name (strip (content st)) /\
  deref (heap st') (entry st') !! name = Some (strip (content st)).
Proof.
  intros Htr Hv. unfold endElement. rewrite Htr.
  case_bool_decide as E; [done|]. intros [= <-].
  split; [done|]. split; [done|].
  change (entry (set_item st name ?v)) with (entry st).
  by rewrite deref_set_item, lookup_insert_eq.
Qed.

Lemma handle_keeps_field a name ev st st' :
  keeps_field name ev = true -> valid st ->
  handle a ev st = Ok st' ->
  entry st' = entry st /\
  deref (heap st') (entry st') !! name = deref (heap st) (entry st) !! name.
Proof.
  intros Hk Hv H. destruct ev as [n|chunk|n]; simpl in H, Hk.
  - injection H as <-. apply negb_true_iff, bool_decide_eq_false in Hk.
    unfold startElement. by rewrite bool_decide_eq_false_2.
  - by injection H as <-.
  - apply andb_prop in Hk as [Hn Hp].
    apply negb_true_iff, bool_decide_eq_false in Hn, Hp.
    unfold endElement in H. destruct (tracked n).
    + case_bool_decide; [done|]. injection H as <-. split; [done|].
      change (entry (set_item st n ?v)) with (entry st).
      rewrite deref_set_item by done. by rewrite lookup_insert_ne.
    + rewrite bool_decide_eq_false_2 in H by done. by injection H as <-.
Qed.

Lemma feed_keeps_field a name evs st st' :
  forallb (keeps_field name) evs = true -> valid st ->
  feed a evs st = Ok st' ->
  deref (heap st') (entry st') !! name = deref (heap st) (entry st) !! name.
Proof.
  revert st. induction evs as [|ev evs IH]; intros st Hk Hv H; simpl in H, Hk.
  - by injection H as <-.
  - apply andb_prop in Hk as [Hk1 Hk2].
    destruct (handle a ev st) as [st1|] eqn:E; [|done]. simpl in H.
    pose proof (handle_valid _ _ _ _ E Hv) as Hv1.
    destruct (handle_keeps_field _ _ _ _ _ Hk1 Hv E) as [_ <-].
    by apply IH.
Qed.

(** What the three callbacks of [<name>value</name>] do for a tracked
    name. *)
Lemma feed_field a name value st :
  tracked name = true -> strip value <> "" ->
  feed a (events_of (field name value)) st
  = Ok (set_item (characters value (startElement name st)) name (strip value)).
Proof.
  intros Htr Hne. cbn [field events_of map concat app feed handle bind].
  unfold endElement. rewrite Htr.
  assert (content (characters value (startElement name st)) = value) as ->.
  { unfold startElement. by case_bool_decide. }
  by rewrite bool_decide_eq_false_2.
Qed.

(** ** The script and the pipeline on regular documents *)

Lemma gather_sim a st0 evs c d :
  valid st0 -> forallb within evs = true ->
  feed a evs (with_local st0 c d)
  = match gather_all (count st0) evs (c, d) with
    | Raise e => Raise e
    | Ok s => Ok (with_local st0 s.1 s.2)
    end.
Proof.
  intros Hv. revert c d. induction evs as [|ev evs IH]; intros c d Hw; [done|].
  simpl in Hw. apply andb_prop in Hw as [Hev Hw].
  cbn [feed gather_all].
  assert (handle a ev (with_local st0 c d)
          = match gather (count st0) ev (c, d) with
            | Raise e => Raise e
            | Ok s => Ok (with_local st0 s.1 s.2)
            end) as ->.
  { unfold within in Hev. apply andb_prop in Hev as [Hs He].
    apply negb_true_iff in Hs, He.
    destruct ev as [n|chunk|n]; simpl in *.
    - unfold startElement. by rewrite Hs.
    - done.
    - unfold endElement. destruct (tracked n); simpl.
      + destruct (bool_decide (strip c = "")); [done|]. simpl.
        unfold set_item, with_local, deref; simpl.
        rewrite list_lookup_insert_eq by exact Hv. simpl.
        by rewrite list_insert_insert_eq.
      + by rewrite He. }
  destruct (gather (count st0) ev (c, d)) as [[c1 d1]|e]; simpl; [|done].
  by apply IH.
Qed.

Lemma events_within n : regular true n = true -> forallb within (events_of n) = true.
Proof.
  induction n as [chunk|name children IH] using node_induction; [done|].
  cbn [regular events_of]. case_bool_decide as Hp; [done|]. simpl.
  intros Hch. unfold within at 1. simpl. rewrite bool_decide_eq_false_2 by done. simpl.
  rewrite forallb_app. simpl. unfold within at 2. simpl.
  rewrite bool_decide_eq_false_2 by done. simpl. rewrite andb_true_r.
  induction IH as [|x l Hx _ IHl]; [done|]. simpl in *.
  apply andb_prop in Hch as [H1 H2]. rewrite forallb_app, Hx, IHl; done.
Qed.

Lemma events_within_all children :
  forallb (regular true) children = true ->
  forallb within (concat (map events_of children)) = true.
Proof.
  induction children as [|x l IH]; [done|]. simpl.
  intros [H1 H2]%andb_prop. by rewrite forallb_app, events_within, IH.
Qed.

(** [</purl>] in terms of [validate]. *)
Lemma end_purl_validate a st :
  valid st ->
  end_purl a st
  = match validate a (count st) (deref (heap st) (entry st)) with
    | Raise e => Raise e
    | Ok d =>
        let st' := with_local st (content st) d in
        Ok (if is_exact d then append_exact st' else append_prefix st')
    end.
Proof.
  intros Hv. rewrite end_purl_unfold by done. cbv zeta. unfold validate.
  assert (forall s l, set_item (set_item st "id" s) "rule" l
          = with_local st (content st)
              (<["rule" := l]> (<["id" := s]> (deref (heap st) (entry st))))) as Hset.
  { intros s l. unfold set_item, with_local, deref; simpl.
    rewrite list_lookup_insert_eq by exact Hv. simpl.
    by rewrite list_insert_insert_eq. }
  set (d := deref (heap st) (entry st)) in *.
  destruct (d !! "id") as [id|]; [|done].
  destruct (re_compile_anchored_i (base_url a)) as [id_re|]; [|done].
  destruct (re_match id_re id) as [stripped|]; [|done].
  destruct (d !! "url") as [url|]; [|done].
  destruct (re_match url_re url); [|done].
  destruct (d !! "type") as [type|] eqn:Hty; [|done].
  assert (forall l, is_exact (<["rule" := l]> (<["id" := stripped]> d))
                    = bool_decide (type = "302")) as Hex.
  { intros l. unfold is_exact. rewrite !lookup_insert_ne, Hty by done.
    apply bool_decide_ext. split; congruence. }
  case_bool_decide as E1.
  - by rewrite Hset, Hex.
  - case_bool_decide as E2; [|done].
    by rewrite Hset, Hex.
Qed.

Lemma same_store_collected st1 st2 d :
  same_store st1 st2 -> same_store (collected st1 d) (collected st2 d).
Proof.
  unfold same_store. intros (Hh & Hc & He & Hx & Hp). simpl.
  by rewrite Hh, Hc, Hx, Hp.
Qed.

Lemma same_store_collect_all st1 st2 ds :
  same_store st1 st2 -> same_store (collect_all st1 ds) (collect_all st2 ds).
Proof.
  revert st1 st2. induction ds as [|d ds IH]; intros st1 st2 H; [done|].
  simpl. by apply IH, same_store_collected.
Qed.

Lemma collect_all_app st ds1 ds2 :
  collect_all st (ds1 ++ ds2) = collect_all (collect_all st ds1) ds2.
Proof. revert st. induction ds1 as [|d ds1 IH]; intros st; simpl; auto. Qed.

Lemma count_collect_all st ds : count (collect_all st ds) = count st + length ds.
Proof.
  revert st. induction ds as [|d ds IH]; intros st; simpl; [lia|].
  rewrite IH. simpl. lia.
Qed.

Lemma all_purls_length a idx rs ds : all_purls a idx rs = Ok ds -> length ds = length rs.
Proof.
  revert idx ds. induction rs as [|r rs IH]; intros idx ds; simpl.
  - by intros [= <-].
  - destruct (one_purl a (S idx) r); [|done].
    destruct (all_purls a (S idx) rs) as [ds'|] eqn:E; [|done].
    intros [= <-]. simpl. f_equal. by eapply IH.
Qed.

Lemma all_purls_app a idx rs1 rs2 :
  all_purls a idx (rs1 ++ rs2)
  = match all_purls a idx rs1 with
    | Raise e => Raise e
    | Ok ds1 =>
        match all_purls a (idx + length rs1) rs2 with
        | Raise e => Raise e
        | Ok ds2 => Ok (ds1 ++ ds2)
        end
    end.
Proof.
  revert idx. induction rs1 as [|r rs1 IH]; intros idx; simpl.
  - rewrite Nat.add_0_r. by destruct (all_purls a idx rs2).
  - destruct (one_purl a (S idx) r); [|done].
    rewrite IH. replace (S idx + length rs1) with (idx + S (length rs1)) by lia.
    destruct (all_purls a (S idx) rs1); [|done].
    by destruct (all_purls a (idx + S (length rs1)) rs2).
Qed.

Lemma valid_with_local st c d : valid st -> valid (with_local st c d).
Proof. unfold valid. simpl. by rewrite length_insert. Qed.

(** A whole [<purl>] element without a nested [<purl>] allocates one
    dictionary, fills it, validates it and lists it. *)
Lemma feed_purl a children st :
  forallb (regular true) children = true ->
  match one_purl a (S (count st)) children with
  | Raise e => feed a (events_of (Element "purl" children)) st = Raise e
  | Ok d =>
      exists st',
        feed a (events_of (Element "purl" children)) st = Ok st' /\
        same_store (collected st d) st'
  end.
Proof.
  intros Hreg. cbn [events_of feed handle bind].
  set (st1 := startElement "purl" st).
  assert (valid st1) as Hv1.
  { unfold valid, st1, startElement. simpl. rewrite length_app. simpl. lia. }
  assert (st1 = with_local st1 "" ∅) as Hst1.
  { unfold with_local, st1, startElement. simpl. f_equal.
    symmetry. apply list_insert_id. by rewrite list_lookup_middle. }
  assert (count st1 = S (count st)) as Hc1 by done.
  rewrite feed_app, Hst1, gather_sim by (done || by apply events_within_all).
  unfold one_purl. rewrite Hc1.
  destruct (gather_all (S (count st)) (concat (map events_of children)) ("", ∅))
    as [[c d]|e]; [|done].
  cbn [bind feed handle fst snd]. unfold endElement.
  replace (tracked "purl") with false by done.
  rewrite bool_decide_eq_true_2 by done.
  rewrite end_purl_validate by by apply valid_with_local.
  replace (deref (heap (with_local st1 c d)) (entry (with_local st1 c d))) with d.
  2:{ unfold deref, with_local. simpl. by rewrite list_lookup_insert_eq. }
  replace (count (with_local st1 c d)) with (S (count st)) by done.
  destruct (validate a (S (count st)) d) as [d'|e]; [|done].
  cbv zeta. eexists. split; [done|].
  assert (heap (with_local (with_local st1 c d) c d') = heap st ++ [d']) as Hheap.
  { unfold with_local, st1, startElement. simpl.
    rewrite list_insert_insert_eq, insert_app_r_alt by done.
    by rewrite Nat.sub_diag. }
  unfold same_store, collected. destruct (is_exact d'); simpl in *;
    rewrite Hheap, ?app_nil_r; by split_and!.
Qed.

Lemma feed_regular a n st :
  regular false n = true ->
  match all_purls a (count st) (records_of n) with
  | Raise e => feed a (events_of n) st = Raise e
  | Ok ds =>
      exists st',
        feed a (events_of n) st = Ok st' /\ same_store (collect_all st ds) st'
  end.
Proof.
  revert st.
  induction n as [chunk|name children IH] using node_induction; intros st Hreg.
  - simpl. eexists. split; [done|]. by repeat split.
  - cbn [regular records_of] in *. case_bool_decide as Hp.
    + subst name. simpl in Hreg. cbn [all_purls].
      pose proof (feed_purl a children st Hreg) as H.
      destruct (one_purl a (S (count st)) children) as [d|e]; [|done].
      exact H.
    + simpl in Hreg. apply andb_prop in Hreg as [Htr Hch].
      apply negb_true_iff in Htr.
      assert (forall st0,
        match all_purls a (count st0) (concat (map records_of children)) with
        | Raise e => feed a (concat (map events_of children)) st0 = Raise e
        | Ok ds =>
            exists st',
              feed a (concat (map events_of children)) st0 = Ok st' /\
              same_store (collect_all st0 ds) st'
        end) as Hkids.
      { clear st. induction IH as [|x l Hx _ IHl]; intros st0.
        - simpl. eexists. split; [done|]. apply same_store_refl.
        - simpl in Hch. apply andb_prop in Hch as [Hqx Hql].
          cbn [map concat]. rewrite all_purls_app, feed_app.
          specialize (Hx st0 Hqx).
          destruct (all_purls a (count st0) (records_of x)) as [ds1|e] eqn:E1;
            [|by rewrite Hx].
          destruct Hx as (st1 & -> & S1). cbn [bind].
          specialize (IHl Hql st1).
          assert (count st1 = count st0 + length (records_of x)) as Hc.
          { destruct S1 as (_ & -> & _). rewrite count_collect_all.
            f_equal. by eapply all_purls_length. }
          rewrite Hc in IHl.
          destruct (all_purls a (count st0 + length (records_of x))
                      (concat (map records_of l))) as [ds2|e]; [|done].
          destruct IHl as (st2 & -> & S2). eexists. split; [done|].
          rewrite collect_all_app.
          eapply same_store_trans; [|exact S2].
          by apply same_store_collect_all. }
      cbn [events_of feed handle bind]. rewrite feed_app.
      set (st0 := startElement name st).
      assert (same_store st st0) as S0.
      { unfold st0, startElement. rewrite bool_decide_eq_false_2 by done.
        by repeat split. }
      specialize (Hkids st0).
      replace (count st0) with (count st) in Hkids by by destruct S0 as (_ & -> & _).
      destruct (all_purls a (count st) (concat (map records_of children)))
        as [ds|e]; [|by rewrite Hkids].
      destruct Hkids as (st1 & -> & S1). cbn [bind feed handle].
      unfold endElement. rewrite Htr, bool_decide_eq_false_2 by done.
      eexists. split; [done|].
      eapply same_store_trans; [|exact S1]. by apply same_store_collect_all.
Qed.

Lemma deref_app_valid h l rs :
  Forall (fun r => r < length h) rs -> map (deref (h ++ l)) rs = map (deref h) rs.
Proof.
  induction 1 as [|r rs Hr _ IH]; [done|]. simpl.
  unfold deref at 1 3. by rewrite lookup_app_l, IH.
Qed.

Lemma collect_all_lists st ds :
  listed_valid st ->
  heap (collect_all st ds) = heap st ++ ds /\
  map (deref (heap (collect_all st ds))) (exact (collect_all st ds))
  = map (deref (heap st)) (exact st) ++ List.filter is_exact ds /\
  map (deref (heap (collect_all st ds))) (prefix (collect_all st ds))
  = map (deref (heap st)) (prefix st)
    ++ List.filter (fun d => negb (is_exact d)) ds.
Proof.
  revert st. induction ds as [|d ds IH]; intros st Hl; simpl.
  - by rewrite !app_nil_r.
  - unfold listed_valid in Hl. apply Forall_app in Hl as [Hx Hp].
    assert (deref (heap st ++ [d]) (length (heap st)) = d) as Hd.
    { unfold deref. by rewrite list_lookup_middle. }
    destruct (IH (collected st d)) as (Hheap & Hex & Hpre).
    { unfold listed_valid. simpl. rewrite length_app. simpl.
      apply Forall_app. split; apply Forall_app; split.
      - eapply Forall_impl; [exact Hx|]. simpl. lia.
      - destruct (is_exact d); repeat constructor. lia.
      - eapply Forall_impl; [exact Hp|]. simpl. lia.
      - destruct (is_exact d); repeat constructor. lia. }
    rewrite Hex, Hpre, Hheap. simpl. rewrite <- !app_assoc. split; [done|].
    rewrite !map_app, (deref_app_valid _ _ _ Hx), (deref_app_valid _ _ _ Hp).
    destruct (is_exact d); simpl; rewrite ?Hd, ?app_nil_r, <- ?app_assoc; done.
Qed.

(** On a regular document the heap holds, after the dictionary of
    [__init__], the validated dictionaries of the records in document
    order, and the two lists refer to those of type '302' and to the
    others, in that order. *)
Lemma parse_regular a xml st :
  regular false xml = true ->
  parse a xml = Ok st ->
  exists ds,
    all_purls a 0 (records_of xml) = Ok ds /\
    heap st = ∅ :: ds /\
    map (deref (heap st)) (exact st) = List.filter is_exact ds /\
    map (deref (heap st)) (prefix st)
    = List.filter (fun d => negb (is_exact d)) ds.
Proof.
  intros Hreg Hp. unfold parse in Hp.
  pose proof (feed_regular a xml init Hreg) as H.
  change (count init) with 0 in H.
  destruct (all_purls a 0 (records_of xml)) as [ds|e]; [|congruence].
  destruct H as (st' & H & (Hh & _ & _ & Hx & Hpre)).
  assert (st' = st) as -> by congruence.
  destruct (collect_all_lists init ds) as (Hheap & Hex & Hprefix).
  { unfold listed_valid. simpl. constructor. }
  exists ds. rewrite Hh, Hx, Hpre. by split_and!.
Qed.

(** On a regular document the script and the pipeline write the same
    text and end the same way. *)
Theorem main_pipeline project xml :
  regular false xml = true -> main project xml = pipeline project xml.
Proof.
  intros Hreg. unfold main, pipeline, parse.
  pose proof (feed_regular (parse_args project) xml init Hreg) as H.
  change (count init) with 0 in H.
  destruct (all_purls (parse_args project) 0 (records_of xml)) as [ds|e];
    [|by rewrite H].
  destruct H as (st & -> & (Hh & _ & _ & Hx & Hp)).
  destruct (collect_all_lists init ds) as (Hheap & Hex & Hpre).
  { unfold listed_valid. simpl. constructor. }
  simpl in Hex, Hpre.
  assert (map (deref (heap st)) (entries st)
          = List.filter is_exact ds
            ++ sorted_desc id_len (List.filter (fun d => negb (is_exact d)) ds)) as He.
  { unfold entries. rewrite map_app, sorted_desc_map, Hh, Hx, Hp. by rewrite Hex, Hpre. }
  unfold compose. rewrite <- He, length_map, <- (map_map (deref (heap st)) render).
  done.
Qed.

(** A document without a [<purl>] element has no record. *)
Lemma records_of_none xml : count_records xml = 0 -> records_of xml = [].
Proof.
  induction xml as [chunk|name children IH] using node_induction; [done|].
  cbn [count_records records_of]. case_bool_decide; [done|]. simpl.
  induction IH as [|x l Hx _ IHl]; [done|]. simpl. intros Hsum.
  rewrite Hx, IHl by lia. done.
Qed.

(** ** Complete dictionaries *)

Lemma validate_complete a idx d d' : validate a idx d = Ok d' -> complete d'.
Proof.
  unfold validate, complete. intros H.
  destruct (d !! "id") as [id|] eqn:Hid; [|done].
  destruct (re_compile_anchored_i (base_url a)) as [id_re|]; [|done].
  destruct (re_match id_re id) as [stripped|]; [|done].
  destruct (d !! "url") as [url|] eqn:Hurl; [|done].
  destruct (re_match url_re url); [|done].
  destruct (d !! "type") as [type|] eqn:Hty; [|done].
  case_bool_decide; [|case_bool_decide; [|done]]; injection H as <-;
    rewrite lookup_insert_eq, !(lookup_insert_ne _ "rule"), lookup_insert_eq,
      !(lookup_insert_ne _ "id"), Hurl, Hty by done; eauto 10.
Qed.

Lemma complete_insert d key value :
  tracked key = true -> complete d -> complete (<[key := value]> d).
Proof.
  intros Htr (Hi & Hu & Ht & Hr). unfold complete.
  assert (key <> "rule") as Hk by (intros ->; done).
  rewrite (lookup_insert_ne _ key "rule") by done.
  split_and!; try done; rewrite lookup_insert; case_decide; eauto.
Qed.

Lemma sound_init : sound init.
Proof. split; [apply valid_init | constructor]. Qed.

Lemma deref_insert_ne (h : list dict) r r' d :
  r <> r' -> deref (<[r := d]> h) r' = deref h r'.
Proof. intros H. unfold deref. by rewrite list_lookup_insert_ne. Qed.

Lemma deref_insert_eq (h : list dict) r d :
  r < length h -> deref (<[r := d]> h) r = d.
Proof. intros H. unfold deref. by rewrite list_lookup_insert_eq. Qed.

Lemma deref_app_l (h l : list dict) r : r < length h -> deref (h ++ l) r = deref h r.
Proof. intros H. unfold deref. by rewrite lookup_app_l. Qed.

(** Replacing the current dictionary by one that is complete whenever the
    old one was keeps the listed dictionaries complete. *)
Lemma sound_with_local st c d :
  sound st ->
  (complete (deref (heap st) (entry st)) -> complete d) ->
  sound (with_local st c d).
Proof.
  intros [Hv Hl] Hd. split; [by apply valid_with_local|]. simpl.
  eapply Forall_impl; [exact Hl|]. intros r [Hr Hc]. simpl.
  rewrite length_insert. split; [done|].
  destruct (decide (r = entry st)) as [->|Hne].
  - rewrite deref_insert_eq by done. auto.
  - by rewrite deref_insert_ne.
Qed.

Lemma set_item_with_local st key value :
  set_item st key value
  = with_local st (content st) (<[key := value]> (deref (heap st) (entry st))).
Proof. done. Qed.

Lemma handle_sound a ev st st' : handle a ev st = Ok st' -> sound st -> sound st'.
Proof.
  intros H Hs. destruct ev as [name|chunk|name]; simpl in H.
  - injection H as <-. unfold startElement. destruct Hs as [Hv Hl].
    case_bool_decide; [|done]. split.
    + unfold valid. simpl. rewrite length_app. simpl. lia.
    + simpl. eapply Forall_impl; [exact Hl|]. intros r [Hr Hc]. simpl.
      rewrite length_app, deref_app_l by done. split; [lia|done].
  - by injection H as <-.
  - unfold endElement in H. destruct (tracked name) eqn:Htr.
    + case_bool_decide; [done|]. injection H as <-.
      rewrite set_item_with_local. apply sound_with_local; [done|].
      by apply complete_insert.
    + case_bool_decide; [|by injection H as <-].
      pose proof Hs as [Hv Hl].
      rewrite end_purl_validate in H by done.
      destruct (validate a (count st) (deref (heap st) (entry st))) as [d|] eqn:E;
        [|done].
      apply validate_complete in E. cbv zeta in H.
      assert (sound (with_local st (content st) d)) as [Hv' Hl']
        by by apply sound_with_local.
      assert (entry st < length (heap (with_local st (content st) d))
              /\ complete (deref (heap (with_local st (content st) d)) (entry st)))
        as Hnew.
      { simpl. rewrite length_insert, deref_insert_eq by done. done. }
      destruct (is_exact d); injection H as <-; (split; [done|]); simpl in *.
      * rewrite <- app_assoc. apply Forall_app in Hl' as [H1 H2].
        apply Forall_app. split; [done|]. apply Forall_app. split; [|done].
        by constructor.
      * rewrite app_assoc. apply Forall_app. split; [done|]. by constructor.
Qed.

Lemma feed_sound a evs st st' : feed a evs st = Ok st' -> sound st -> sound st'.
Proof.
  revert st. induction evs as [|ev evs IH]; intros st H Hs; simpl in H.
  - by injection H as <-.
  - destruct (handle a ev st) as [st1|] eqn:E; [|done].
    eapply IH; [exact H|]. by eapply handle_sound.
Qed.




(** ** Sample runs *)

(** The scenario of two records: the exact rule comes first although it
    is the second record of the input. *)
Example two_records_output :
  main "FOO" two_records
  = ( [ header (parse_args "FOO");
        render {[ "rule" := "exact"; "id" := "/branches/";
                  "url" := "http://example.org/b" ]};
        render {[ "rule" := "prefix"; "id" := "/short";
                  "url" := "http://example.org/s" ]} ],
      Ok tt ).
Proof. by vm_compute. Qed.

Example nested_records_share_a_dictionary :
  regular false nested = false /\
  (exists st,
      parse (parse_args "FOO") nested = Ok st /\
      exact st = [2] /\ prefix st = [2; 3]) /\
  main "FOO" nested
  = ( [ header (parse_args "FOO");
        render {[ "rule" := "exact"; "id" := "/x";
                  "url" := "http://example.org/x" ]};
        render {[ "rule" := "prefix"; "id" := "/longer";
                  "url" := "http://example.org/l" ]};
        render {[ "rule" := "exact"; "id" := "/x";
                  "url" := "http://example.org/x" ]} ],
      Ok tt ).
Proof.
  split; [done|]. split; [|by vm_compute].
  eexists. split; [by vm_compute|]. done.
Qed.

(** The run on [five_records]: both exact entries first, then the
    longest prefix id, then the two prefix ids of equal length in the
    order of their records. *)
Example five_records_output :
  main "FOO" five_records
  = ( [ header (parse_args "FOO");
        render {[ "rule" := "exact"; "id" := "/exact1"; "url" := "http://example.org/1" ]};
        render {[ "rule" := "exact"; "id" := "/exact2"; "url" := "http://example.org/2" ]};
        render {[ "rule" := "prefix"; "id" := "/long/path/"; "url" := "http://example.org/l" ]};
        render {[ "rule" := "prefix"; "id" := "/a/"; "url" := "http://example.org/a" ]};
        render {[ "rule" := "prefix"; "id" := "/b/"; "url" := "http://example.org/b" ]} ],
      Ok tt ).
Proof. by vm_compute. Qed.

(** * The claims *)




(** C2: once the identifier and the URL of a record have passed their
    checks, type '302' appends the entry to [exact] with rule 'exact',
    type 'partial' appends it to [prefix] with rule 'prefix', and every
    other type raises 'Unknown type' with that value.  A record that is
    collected has one of these two rules. *)
Theorem type_decides_kind a st id id_re stripped url rest type :
  deref (heap st) (entry st) !! "id" = Some id ->
  re_compile_anchored_i (base_url a) = Some id_re ->
  re_match id_re id = Some stripped ->
  deref (heap st) (entry st) !! "url" = Some url ->
  re_match url_re url = Some rest ->
  deref (heap st) (entry st) !! "type" = Some type ->
  (type = "302" ->
   exists st', end_purl a st = Ok st' /\
     exact st' = exact st ++ [entry st] /\ prefix st' = prefix st /\
     deref (heap st') (entry st) !! "rule" = Some "exact") /\
  (type = "partial" ->
   exists st', end_purl a st = Ok st' /\
     prefix st' = prefix st ++ [entry st] /\ exact st' = exact st /\
     deref (heap st') (entry st) !! "rule" = Some "prefix") /\
  (type <> "302" -> type <> "partial" ->
   end_purl a st = Raise (UnknownType type (count st))) /\
  (forall st', end_purl a st = Ok st' ->
     type = "302" \/ type = "partial").
Proof.
  intros Hid Hre Hm Hurl Hu Hty.
  pose proof (captured_valid _ _ _ Hid) as Hv.
  rewrite (end_purl_unfold a st Hv). cbv zeta.
  rewrite Hid, Hre, Hm, Hurl, Hu, Hty.
  split; [|split; [|split]].
  - intros ->. eexists. split; [done|]. simpl exact. simpl prefix.
    split; [done|]. split; [done|].
    change (heap (append_exact ?s)) with (heap s).
    rewrite deref_collected by done. by rewrite lookup_insert_eq.
  - intros ->. eexists. split; [done|]. simpl exact. simpl prefix.
    split; [done|]. split; [done|].
    change (heap (append_prefix ?s)) with (heap s).
    rewrite deref_collected by done. by rewrite lookup_insert_eq.
  - intros H1 H2. by rewrite !bool_decide_eq_false_2.
  - intros st'. repeat case_bool_decide; auto. done.
Qed.

Lemma type_decides_kind_witness :
  exists st',
    end_purl (parse_args "FOO")
      (at_end_purl "FOO" (purl_fields "/obo/foo/a" "302" "http://example.org/a"))
    = Ok st' /\ exact st' = [1] /\ prefix st' = [].
Proof.
  destruct (type_decides_kind (parse_args "FOO")
              (at_end_purl "FOO" (purl_fields "/obo/foo/a" "302" "http://example.org/a"))
              "/obo/foo/a" (Pattern (lits "/obo/foo") true) "/a"
              "http://example.org/a" "" "302")
    as [H _]; [by vm_compute ..|].
  destruct (H eq_refl) as (st' & Hst & He & Hp & _).
  exists st'. split; [exact Hst|]. split; [exact He | exact Hp].
Defined.

(** C3 at a project id with a special character: with project 'A.B' the
    base path is '/obo/a.b', the identifier '/obo/axb/t' does not begin
    with it, and yet the run completes and stores '/t', because the base
    path is used as pattern text in which the dot matches any
    character. *)
Theorem base_path_dot_matches_any :
  base_url (parse_args "A.B") = "/obo/a.b" /\
  ~ begins_with_ci "/obo/a.b" "/obo/axb/t" /\
  main "A.B" (one_record "/obo/axb/t" "302" "http://example.org/t")
  = ( [ header (parse_args "A.B");
        render {[ "rule" := "exact"; "id" := "/t";
                  "url" := "http://example.org/t" ]} ],
      Ok tt ).
Proof.
  split; [by vm_compute|]. split; [|by vm_compute].
  apply no_match_base_plain. by vm_compute.
Qed.

(** C4, as the code has it: for a record whose id has passed the base
    path check and whose url was captured, [</purl>] raises 'not an
    absolute HTTP or FTP URL' exactly when the url is not 'http://',
    'https://' or 'ftp://' followed by at least one character of which
    the first is not a line feed.  A record with url
    'ftp://files.example.org/x' and type 'partial' is accepted and
    appended to [prefix] with rule 'prefix'. *)
Theorem url_shape_check a st id id_re stripped url :
  deref (heap st) (entry st) !! "id" = Some id ->
  re_compile_anchored_i (base_url a) = Some id_re ->
  re_match id_re id = Some stripped ->
  deref (heap st) (entry st) !! "url" = Some url ->
  (end_purl a st = Raise (InvalidUrl (count st) url)
   <-> ~ scheme_and_more_on_line url) /\
  (url = "ftp://files.example.org/x" ->
   deref (heap st) (entry st) !! "type" = Some "partial" ->
   exists st', end_purl a st = Ok st' /\
     prefix st' = prefix st ++ [entry st] /\ exact st' = exact st /\
     deref (heap st') (entry st) !! "rule" = Some "prefix").
Proof.
  intros Hid Hre Hm Hurl.
  pose proof (captured_valid _ _ _ Hid) as Hv.
  rewrite (end_purl_unfold a st Hv). cbv zeta.
  rewrite Hid, Hre, Hm, Hurl. rewrite <- url_re_spec. split.
  - destruct (re_match url_re url) as [rest|] eqn:E.
    + split; [|intros H; destruct H; eauto].
      intros H. repeat case_match; simplify_eq.
    + split; [|done]. intros _ [? ?]. done.
  - intros -> Hty. rewrite Hty.
    replace (re_match url_re "ftp://files.example.org/x") with (Some "")
      by by vm_compute.
    rewrite bool_decide_eq_false_2, bool_decide_eq_true_2 by done.
    eexists. split; [done|]. simpl exact. simpl prefix.
    split; [done|]. split; [done|].
    change (heap (append_prefix ?s)) with (heap s).
    rewrite deref_collected by done. by rewrite lookup_insert_eq.
Qed.

Lemma url_shape_check_witness :
  exists st',
    end_purl (parse_args "FOO")
      (at_end_purl "FOO"
         (purl_fields "/obo/foo/files/" "partial" "ftp://files.example.org/x"))
    = Ok st' /\ prefix st' = [1].
Proof.
  destruct (url_shape_check (parse_args "FOO")
              (at_end_purl "FOO"
                 (purl_fields "/obo/foo/files/" "partial" "ftp://files.example.org/x"))
              "/obo/foo/files/" (Pattern (lits "/obo/foo") true) "/files/"
              "ftp://files.example.org/x")
    as [_ H]; [by vm_compute ..|].
  destruct H as (st' & Hst & Hp & _); [done | by vm_compute |].
  exists st'. split; [exact Hst | exact Hp].
Defined.

(** A url whose first character after '://' is a line feed has a scheme
    and more text after it, and is rejected all the same. *)
Lemma url_line_feed_rejected :
  let url := "http://" +:+ String line_feed "x" in
  scheme_and_more url /\
  main "FOO" (one_record "/obo/foo/a" "partial" url)
  = ([], Raise (InvalidUrl 1 url)).
Proof.
  split; [|by vm_compute].
  exists "http", (String line_feed "x"). split; [repeat constructor|]. done.
Qed.

(** C5, as the code has it: for a project id without special characters,
    stripping the base path from an already stripped id changes nothing
    exactly when the stripped id does not itself begin with the base
    path, that is, when the original identifier did not begin with the
    base path twice in a row. *)
Theorem strip_again_plain project id id_re stripped :
  plain project = true ->
  re_compile_anchored_i (base_url (parse_args project)) = Some id_re ->
  re_match id_re id = Some stripped ->
  let base := base_url (parse_args project) in
  (re_sub_empty id_re stripped = stripped <-> ~ begins_with_ci base stripped) /\
  (begins_with_ci base stripped <-> begins_with_ci (base +:+ base) id).
Proof.
  intros Hp Hre Hm base.
  assert (id_re = Pattern (lits base) true) as ->.
  { pose proof (base_pattern_plain project Hp) as Hb. subst base. congruence. }
  apply match_base_plain in Hm as (occ & -> & Hocc).
  assert (len occ = len base) as Hlen by by rewrite <- (len_lower occ), Hocc, len_lower.
  assert (0 < len base) as Hpos by apply base_url_nonempty.
  split.
  - rewrite <- no_match_base_plain. unfold re_sub_empty.
    destruct (re_match (Pattern (lits base) true) stripped) as [rest|] eqn:E; [|done].
    split; [|done]. intros ->.
    apply match_base_plain in E as (occ' & E & Hocc').
    apply (f_equal len) in E. rewrite len_append in E.
    assert (len occ' = len base) by by rewrite <- (len_lower occ'), Hocc', len_lower.
    lia.
  - unfold begins_with_ci. split.
    + intros (occ' & rest & -> & Hocc').
      exists (occ +:+ occ'), rest. split; [by rewrite append_assoc|].
      by rewrite !lower_append, Hocc, Hocc'.
    + intros (occ2 & rest & H & Hocc2).
      destruct (append_eq_split occ stripped occ2 rest H) as (u & -> & ->).
      { rewrite <- (len_lower occ2), Hocc2, len_lower, len_append. lia. }
      exists u, rest. split; [done|].
      rewrite !lower_append, Hocc in Hocc2. by apply append_inv_head in Hocc2.
Qed.

Lemma strip_again_plain_witness :
  re_sub_empty (Pattern (lits "/obo/foo") true) "/branches/" = "/branches/".
Proof.
  refine (proj2 (proj1 (strip_again_plain "FOO" "/obo/foo/branches/"
                          (Pattern (lits "/obo/foo") true) "/branches/" _ _ _)) _).
  - by vm_compute.
  - by vm_compute.
  - by vm_compute.
  - apply no_match_base_plain. by vm_compute.
Defined.

(** An identifier that begins with the base path twice: validation
    stores it with one occurrence removed, and stripping the stored id
    once more removes the second one. *)
Lemma strip_twice_differs :
  let id_re := Pattern (lits "/obo/foo") true in
  re_compile_anchored_i (base_url (parse_args "FOO")) = Some id_re /\
  main "FOO" (one_record "/obo/foo/obo/foo/x" "302" "http://example.org/x")
  = ( [ header (parse_args "FOO");
        render {[ "rule" := "exact"; "id" := "/obo/foo/x";
                  "url" := "http://example.org/x" ]} ],
      Ok tt ) /\
  re_match id_re "/obo/foo/obo/foo/x" = Some "/obo/foo/x" /\
  re_sub_empty id_re "/obo/foo/x" = "/x" /\
  re_sub_empty id_re "/obo/foo/x" <> "/obo/foo/x".
Proof. by vm_compute. Qed.

(** C6: a second capture of a tracked field overwrites the first.  After
    two occurrences in a row the program is in the very state that the
    second occurrence alone would have produced, and in any run the value
    stored for a field is the one of its last occurrence: what is in
    [self.entry] after it, as long as no record starts or ends and the
    field is not closed again, is the stripped text of that occurrence. *)
Theorem repeated_field_last_wins a name first second :
  tracked name = true -> strip first <> "" -> strip second <> "" ->
  (forall st,
      feed a (events_of (field name first) ++ events_of (field name second)) st
      = feed a (events_of (field name second)) st) /\
  (forall before between after st',
      forallb (keeps_field name) after = true ->
      feed a (before ++ events_of (field name first) ++ between
                ++ events_of (field name second) ++ after) init = Ok st' ->
      deref (heap st') (entry st') !! name = Some (strip second)).
Proof.
  intros Htr H1 H2.
  assert (name <> "purl") as Hnp by by apply tracked_not_purl.
  split.
  - intros st. rewrite feed_app, !feed_field by done. cbn [bind].
    rewrite feed_field by done. f_equal.
    unfold startElement. rewrite !bool_decide_eq_false_2 by done.
    unfold characters, set_item. simpl. f_equal.
    destruct (decide (entry st < length (heap st))) as [Hv|Hv].
    + unfold deref at 1. rewrite list_lookup_insert_eq by done. simpl.
      by rewrite list_insert_insert_eq, insert_insert_eq.
    + by rewrite !(list_insert_ge (heap st)) by lia.
  - intros before between after st' Hafter Hfeed.
    rewrite !app_assoc in Hfeed.
    apply feed_app_Ok in Hfeed as (st2 & Hfeed & Hrest).
    apply feed_app_Ok in Hfeed as (st1 & Hfeed & Hsecond).
    pose proof (feed_valid _ _ _ _ Hfeed valid_init) as Hv1.
    rewrite feed_field in Hsecond by done. injection Hsecond as <-.
    assert (valid (characters second (startElement name st1))) as Hv2.
    { unfold valid, startElement in *. by rewrite bool_decide_eq_false_2. }
    rewrite (feed_keeps_field _ _ _ _ _ Hafter (valid_set_item _ _ _ Hv2) Hrest).
    change (entry (set_item ?s name ?v)) with (entry s).
    by rewrite deref_set_item, lookup_insert_eq.
Qed.

Lemma repeated_field_last_wins_witness :
  exists st',
    feed (parse_args "FOO")
      ([StartElement "purls"; StartElement "purl"]
         ++ events_of (field "id" "/obo/foo/first")
         ++ events_of (field "type" "302")
         ++ events_of (field "id" "/obo/foo/second")
         ++ events_of (field "url" "http://example.org/2")) init = Ok st'
    /\ deref (heap st') (entry st') !! "id" = Some "/obo/foo/second"
    /\ main "FOO" twice_id
       = ( [ header (parse_args "FOO");
             render {[ "rule" := "exact"; "id" := "/second";
                       "url" := "http://example.org/2" ]} ],
           Ok tt ).
Proof.
  eexists. split; [by vm_compute|]. split; [|by vm_compute].
  refine (proj2 (repeated_field_last_wins (parse_args "FOO") "id"
                   "/obo/foo/first" "/obo/foo/second" _ _ _)
            [StartElement "purls"; StartElement "purl"]
            (events_of (field "type" "302"))
            (events_of (field "url" "http://example.org/2")) _ _ _).
  - done.
  - by vm_compute.
  - by vm_compute.
  - done.
  - by vm_compute.
Defined.

(** C7: when the stream is exhausted and both lists are empty, which is
    the case for every document without a [<purl>] element, the run raises
    'No entries to migrate' and writes nothing; a regular document without
    a [<purl>] element always ends this way.  Whenever anything at all is
    written, the whole document was handled without an exception, there
    is at least one entry and the run completes. *)
Theorem no_entries_no_output project xml :
  (forall st,
      parse (parse_args project) xml = Ok st ->
      exact st = [] -> prefix st = [] ->
      main project xml = ([], Raise NoEntries)) /\
  (forall st,
      parse (parse_args project) xml = Ok st ->
      count_records xml = 0 ->
      main project xml = ([], Raise NoEntries)) /\
  (regular false xml = true -> count_records xml = 0 ->
   main project xml = ([], Raise NoEntries)) /\
  (forall w r,
      main project xml = (w, r) -> w <> [] ->
      r = Ok tt /\
      exists st, parse (parse_args project) xml = Ok st /\ entries st <> []).
Proof.
  assert (forall st, parse (parse_args project) xml = Ok st ->
            exact st = [] -> prefix st = [] ->
            main project xml = ([], Raise NoEntries)) as Hempty.
  { intros st Hp He Hpre. unfold main, entries. by rewrite Hp, He, Hpre. }
  assert (forall st, parse (parse_args project) xml = Ok st ->
            count_records xml = 0 -> exact st = [] /\ prefix st = []) as Hnone.
  { intros st Hp Hc. apply feed_collected in Hp.
    rewrite closed_events_of, Hc in Hp. simpl in Hp.
    split; apply length_zero_iff_nil; lia. }
  split; [exact Hempty|]. split.
  { intros st Hp Hc. destruct (Hnone st Hp Hc). by apply (Hempty st). }
  split.
  { intros Hreg Hc. rewrite main_pipeline by done.
    unfold pipeline. by rewrite records_of_none. }
  intros w r. unfold main.
  destruct (parse (parse_args project) xml) as [st|] eqn:Hp.
  - destruct (length (entries st) =? 0) eqn:E.
    + intros [= <- <-]. done.
    + intros [= <- <-] _. split; [done|]. exists st. split; [done|].
      intros Hnil. rewrite Hnil in E. done.
  - intros [= <- <-]. done.
Qed.

Lemma no_entries_no_output_witness :
  main "FOO" (Element "purls" [Text " "; Element "note" [Text "none yet"]])
  = ([], Raise NoEntries)
  /\ snd (main "FOO" two_records) = Ok tt.
Proof.
  split.
  - destruct (no_entries_no_output "FOO"
                (Element "purls" [Text " "; Element "note" [Text "none yet"]]))
      as (_ & _ & H & _).
    apply H; by vm_compute.
  - destruct (no_entries_no_output "FOO" two_records) as (_ & _ & _ & H).
    apply (H (fst (main "FOO" two_records))); by vm_compute.
Defined.

(** C8: the checks of [</purl>] come in a fixed order, and the first one
    that fails decides the exception, whatever the fields that a later
    check would look at hold: a missing id; an id that the base pattern
    does not match; a missing url; a url of the wrong shape; a missing
    type; an unknown type.  The number in the message is the count of
    [<purl>] start tags seen so far, which for a record without a nested
    [<purl>] is its 1-based position among the records. *)
Theorem validation_order a st id_re :
  valid st ->
  re_compile_anchored_i (base_url a) = Some id_re ->
  let d := deref (heap st) (entry st) in
  (d !! "id" = None ->
   end_purl a st = Raise (MissingField "id" (count st))) /\
  (forall id,
      d !! "id" = Some id -> re_match id_re id = None ->
      end_purl a st = Raise (PrefixMismatch (count st) id (base_url a))) /\
  (forall id stripped,
      d !! "id" = Some id -> re_match id_re id = Some stripped ->
      d !! "url" = None ->
      end_purl a st = Raise (MissingField "url" (count st))) /\
  (forall id stripped url,
      d !! "id" = Some id -> re_match id_re id = Some stripped ->
      d !! "url" = Some url -> re_match url_re url = None ->
      end_purl a st = Raise (InvalidUrl (count st) url)) /\
  (forall id stripped url rest,
      d !! "id" = Some id -> re_match id_re id = Some stripped ->
      d !! "url" = Some url -> re_match url_re url = Some rest ->
      d !! "type" = None ->
      end_purl a st = Raise (MissingField "type" (count st))) /\
  (forall id stripped url rest type,
      d !! "id" = Some id -> re_match id_re id = Some stripped ->
      d !! "url" = Some url -> re_match url_re url = Some rest ->
      d !! "type" = Some type -> type <> "302" -> type <> "partial" ->
      end_purl a st = Raise (UnknownType type (count st))) /\
  (forall before inside e,
      feed a (before ++ StartElement "purl" :: inside) init = Ok st ->
      forallb (fun ev => negb (is_start_purl ev)) inside = true ->
      end_purl a st = Raise e ->
      error_index e = Some (S (opened before))).
Proof.
  intros Hv Hre d.
  assert (forall before inside e,
      feed a (before ++ StartElement "purl" :: inside) init = Ok st ->
      forallb (fun ev => negb (is_start_purl ev)) inside = true ->
      end_purl a st = Raise e ->
      error_index e = Some (S (opened before))) as Hindex.
  { intros before inside e Hfeed Hin He.
    rewrite (end_purl_Raise_index a st id_re e Hre He). f_equal.
    apply feed_count in Hfeed. rewrite Hfeed.
    change (StartElement "purl" :: inside) with ([StartElement "purl"] ++ inside).
    rewrite !opened_app. simpl count.
    assert (opened inside = 0) as ->.
    { clear -Hin. unfold opened. induction inside as [|ev l IH]; simpl in *; [done|].
      apply andb_prop in Hin as [H1 H2]. apply negb_true_iff in H1.
      rewrite H1. auto. }
    unfold opened at 2. simpl. lia. }
  revert Hindex.
  rewrite (end_purl_unfold a st Hv). cbv zeta. fold d. rewrite Hre.
  intros Hindex. split_and!.
  - by intros ->.
  - by intros id -> ->.
  - by intros id stripped -> -> ->.
  - by intros id stripped url -> -> -> ->.
  - by intros id stripped url rest -> -> -> -> ->.
  - intros id stripped url rest type -> -> -> -> -> H1 H2.
    by rewrite !bool_decide_eq_false_2.
  - exact Hindex.
Qed.

(** A record without an id and with an unknown type: the missing id is
    what is reported. *)
Lemma validation_order_witness :
  end_purl (parse_args "FOO")
    (at_end_purl "FOO" [field "type" "301"; field "url" "gopher://x"])
  = Raise (MissingField "id" 1).
Proof.
  refine (proj1 (validation_order (parse_args "FOO")
                   (at_end_purl "FOO" [field "type" "301"; field "url" "gopher://x"])
                   (Pattern (lits "/obo/foo") true) _ _) _).
  - vm_compute. lia.
  - by vm_compute.
  - by vm_compute.
Defined.

(** C9: a run that completes writes the header and then, for each
    [<purl>] element of the document, one entry block: a rule of
    'exact' or 'prefix', an id and a url in the layout of the entry
    template. *)
Theorem entry_blocks_match_records project xml w :
  main project xml = (w, Ok tt) ->
  exists blocks,
    w = header (parse_args project) :: blocks /\
    length blocks = count_records xml /\
    Forall (fun block =>
              exists rule id url,
                (rule = "exact" \/ rule = "prefix") /\
                block = String.concat ""
                          [ "- "; rule; ": "; id; nl;
                            "  replacement: "; url; nl; nl ])
      blocks.
Proof.
  unfold main. intros H.
  destruct (parse (parse_args project) xml) as [st|] eqn:E; [|done].
  destruct (length (entries st) =? 0); [done|]. injection H as <-.
  eexists. split; [done|]. split.
  - rewrite length_map. unfold entries.
    rewrite length_app, (Permutation_length (sorted_desc_perm _ _)).
    apply feed_collected in E. rewrite closed_events_of in E. simpl in E. lia.
  - pose proof (feed_sound _ _ _ _ E sound_init) as [_ Hl].
    apply Forall_map. unfold entries.
    apply Forall_app in Hl as [H1 H2]. apply Forall_app.
    split; [|rewrite sorted_desc_perm];
      (eapply Forall_impl; [eassumption|]);
      intros r [_ (_ & _ & _ & Hr)]; simpl;
      exists (item (deref (heap st) r) "rule"), (item (deref (heap st) r) "id"),
             (item (deref (heap st) r) "url");
      (split; [|done]); unfold item; destruct Hr as [-> | ->]; auto.
Qed.

Lemma entry_blocks_match_records_witness :
  exists blocks,
    main "FOO" five_records = (header (parse_args "FOO") :: blocks, Ok tt) /\
    length blocks = 5 /\
    Forall (fun block =>
              exists rule id url,
                (rule = "exact" \/ rule = "prefix") /\
                block = String.concat ""
                          [ "- "; rule; ": "; id; nl;
                            "  replacement: "; url; nl; nl ])
      blocks.
Proof.
  destruct (entry_blocks_match_records "FOO" five_records
              (fst (main "FOO" five_records)))
    as (blocks & Hw & Hlen & Hb); [by vm_compute|].
  exists blocks. split; [|split; [exact Hlen | exact Hb]].
  rewrite <- Hw. by vm_compute.
Defined.

(** C10: every start tag empties the content buffer, whatever the
    element.  So when a tracked element has a child element, the value
    stored at its end tag is the stripped character data that arrived
    after the start tag of the last child; whatever came before that
    start tag has no part in it. *)
Theorem start_resets_buffer a :
  (forall name st, content (startElement name st) = "") /\
  (forall name before child rest st st',
      tracked name = true -> valid st ->
      forallb (fun ev => negb (is_start ev)) rest = true ->
      feed a (StartElement name :: before ++ StartElement child :: rest
                ++ [EndElement name]) st = Ok st' ->
      deref (heap st') (entry st') !! name = Some (strip (text_of rest))).
Proof.
  split.
  - intros name st. unfold startElement. by case_bool_decide.
  - intros name before child rest st st' Htr Hv Hrest Hfeed.
    change (StartElement name :: before ++ StartElement child :: rest ++ [EndElement name])
      with ((StartElement name :: before) ++ (StartElement child :: rest) ++ [EndElement name])
      in Hfeed.
    rewrite !app_assoc in Hfeed.
    apply feed_app_Ok in Hfeed as (st1 & H1 & H2).
    pose proof (feed_valid _ _ _ _ H1 Hv) as Hv1.
    apply feed_content in H1.
    rewrite buffer_after_app in H1. simpl buffer_after at 1 in H1.
    rewrite buffer_after_no_start, append_nil in H1 by done.
    simpl in H2. destruct (endElement a name st1) as [st2|] eqn:E; [|done].
    injection H2 as ->.
    apply end_tracked in E as (_ & _ & E); [|done..]. by rewrite <- H1.
Qed.

Lemma start_resets_buffer_witness :
  exists st',
    feed (parse_args "FOO")
      (events_of (Element "id" [Text "/obo/foo/"; Element "b" [Text "/obo/"];
                                Text "foo/x "]))
      init = Ok st'
    /\ deref (heap st') (entry st') !! "id" = Some "/obo/foo/x".
Proof.
  eexists. split; [by vm_compute|].
  refine (proj2 (start_resets_buffer (parse_args "FOO"))
            "id" [Characters "/obo/foo/"] "b"
            [Characters "/obo/"; EndElement "b"; Characters "foo/x "]
            init _ _ _ _ _).
  - done.
  - apply valid_init.
  - done.
  - by vm_compute.
Defined.

(** * Further properties of the code *)

(** ** Dictionaries that reach the output *)

(** X1: [main] never meets a missing key.  Every block that a completed
    run writes is formatted from a dictionary that holds an id, a url and
    a type and whose rule is 'exact' or 'prefix', whatever the shape of
    the document. *)
Theorem written_blocks_complete project xml w :
  main project xml = (w, Ok tt) ->
  exists st,
    parse (parse_args project) xml = Ok st /\
    Forall (fun r => r < length (heap st) /\ complete (deref (heap st) r))
      (entries st) /\
    tail w = map (fun r => render (deref (heap st) r)) (entries st) /\
    Forall (fun block =>
              exists rule id url,
                (rule = "exact" \/ rule = "prefix") /\
                block = String.concat ""
                          [ "- "; rule; ": "; id; nl;
                            "  replacement: "; url; nl; nl ])
      (tail w).
Proof.
  unfold main. intros H.
  destruct (parse (parse_args project) xml) as [st|] eqn:E; [|done].
  destruct (length (entries st) =? 0); [done|]. injection H as <-.
  exists st. split; [done|].
  pose proof (feed_sound _ _ _ _ E sound_init) as [_ Hl].
  assert (Forall (fun r => r < length (heap st) /\ complete (deref (heap st) r))
            (entries st)) as He.
  { unfold entries. apply Forall_app in Hl as [H1 H2]. apply Forall_app.
    split; [done|]. by rewrite sorted_desc_perm. }
  split; [done|]. split; [done|]. simpl.
  apply Forall_map. eapply Forall_impl; [exact He|].
  intros r [_ (_ & _ & _ & Hr)]. simpl.
  exists (item (deref (heap st) r) "rule"), (item (deref (heap st) r) "id"),
         (item (deref (heap st) r) "url").
  split; [|done]. unfold item. destruct Hr as [-> | ->]; auto.
Qed.

Lemma written_blocks_complete_witness :
  exists st,
    parse (parse_args "FOO") nested = Ok st /\
    Forall (fun r => r < length (heap st) /\ complete (deref (heap st) r))
      (entries st).
Proof.
  destruct (written_blocks_complete "FOO" nested (fst (main "FOO" nested)))
    as (st & Hp & He & _); [by vm_compute|].
  exists st. split; [exact Hp | exact He].
Defined.

(** ** What a successful [</purl>] touches *)

(** X2: a successful [</purl>] leaves the record count, the content
    buffer and [self.entry] as they are, changes no dictionary but the
    current one, changes no key of the current one but 'id' and 'rule'
    (the url and the type are kept as captured), and appends the current
    reference to exactly one of the two lists. *)
Theorem end_purl_frame a st st' :
  end_purl a st = Ok st' ->
  count st' = count st /\ content st' = content st /\ entry st' = entry st /\
  length (heap st') = length (heap st) /\
  (forall r, r <> entry st -> deref (heap st') r = deref (heap st) r) /\
  (forall key, key <> "id" -> key <> "rule" ->
     deref (heap st') (entry st) !! key = deref (heap st) (entry st) !! key) /\
  (exact st' = exact st ++ [entry st] /\ prefix st' = prefix st \/
   exact st' = exact st /\ prefix st' = prefix st ++ [entry st]).
Proof.
  intros H.
  destruct (end_purl_Ok a st st' H) as (id_re & id & _ & Hid & Hst').
  pose proof (captured_valid _ _ _ Hid) as Hv. cbv zeta in Hst'.
  assert (forall s l,
    let st2 := set_item (set_item st "id" s) "rule" l in
    length (heap st2) = length (heap st) /\
    (forall r, r <> entry st -> deref (heap st2) r = deref (heap st) r) /\
    (forall key, key <> "id" -> key <> "rule" ->
       deref (heap st2) (entry st) !! key = deref (heap st) (entry st) !! key))
    as Hset.
  { intros s l st2. unfold st2. split; [|split].
    - simpl. by rewrite !length_insert.
    - intros r Hr. simpl. by rewrite !deref_insert_ne.
    - intros key H1 H2. rewrite deref_collected by done.
      by rewrite !lookup_insert_ne. }
  destruct Hst' as [-> | ->];
    destruct (Hset (re_sub_empty id_re id) "exact") as (L1 & F1 & K1);
    destruct (Hset (re_sub_empty id_re id) "prefix") as (L2 & F2 & K2);
    split_and!; try done; auto.
Qed.

Lemma end_purl_frame_witness :
  exists st',
    end_purl (parse_args "FOO")
      (at_end_purl "FOO" (purl_fields "/obo/foo/a" "302" "http://example.org/a"))
    = Ok st' /\
    deref (heap st') 1 !! "url" = Some "http://example.org/a".
Proof.
  eexists. split; [by vm_compute|].
  refine (eq_trans
            (proj1 (proj2 (proj2 (proj2 (proj2 (proj2
               (end_purl_frame (parse_args "FOO")
                  (at_end_purl "FOO"
                     (purl_fields "/obo/foo/a" "302" "http://example.org/a"))
                  _ _))))))
               "url" _ _) _).
  - by vm_compute.
  - done.
  - done.
  - by vm_compute.
Defined.

(** ** The text that the base pattern removes *)

Lemma parsed_match text r :
  re_parse text = Some r ->
  forall {A : Type} s (k : string -> option A) x,
    match_re true r s k = Some x ->
    exists occ rest, s = occ +:+ rest /\ len occ = len text /\ k rest = Some x.
Proof.
  revert r. induction text as [|c text IH]; intros r Hr A s k x Hm.
  - injection Hr as <-. by exists "", s.
  - simpl in Hr. destruct (re_parse text) as [r'|]; [|done].
    assert (exists a, r = Seq (Atom a) r') as [a ->].
    { case_bool_decide; [|destruct (re_special c); [done|]];
        injection Hr as <-; eauto. }
    cbn [match_re] in Hm. destruct s as [|ch s]; [done|].
    destruct (atom_matches true a ch); [|done].
    destruct (IH r' eq_refl A s k x Hm) as (occ & rest & -> & Hlen & Hk).
    exists (String ch occ), rest. simpl. by rewrite Hlen.
Qed.

Lemma parsed_obo text r :
  re_parse ("/obo/" +:+ text) = Some r ->
  forall s rest, match_re true r s Some = Some rest ->
  exists head tail, s = head +:+ tail /\ lower head = "/obo/".
Proof.
  rewrite !append_cons, append_nil. cbn [re_parse].
  destruct (re_parse text) as [r'|]; [|done]. simpl.
  intros [= <-] s rest. cbn [match_re].
  destruct s as [|c1 [|c2 [|c3 [|c4 [|c5 s]]]]]; try done;
    repeat (case_match; try done).
  intros _. exists (String c1 (String c2 (String c3 (String c4 (String c5 ""))))), s.
  split; [done|]. unfold lower. simpl.
  repeat match goal with
         | H : atom_matches true (Lit _) _ = true |- _ =>
             apply bool_decide_eq_true in H; simpl in H; rewrite <- H; clear H
         end.
  done.
Qed.

Lemma dot_lower_char c :
  bool_decide (lower_char c = "."%char) = bool_decide (c = "."%char).
Proof. by destruct c as [[] [] [] [] [] [] [] []]. Qed.

Lemma plain_or_dot_lower text : plain_or_dot (lower text) = plain_or_dot text.
Proof.
  induction text as [|c text IH]; [done|].
  unfold lower in *. simpl. by rewrite dot_lower_char, special_lower_char, IH.
Qed.

Lemma re_parse_plain_or_dot text :
  plain_or_dot text = true -> is_Some (re_parse text).
Proof.
  induction text as [|c text IH]; [by eexists|]. simpl.
  intros [Hc Ht]%andb_prop. destruct (IH Ht) as [r ->].
  case_bool_decide; [by eexists|]. simpl in Hc.
  apply negb_true_iff in Hc. rewrite Hc. by eexists.
Qed.

(** X3: for a project id made of ordinary characters and dots, the base
    pattern compiles, an identifier that it accepts begins with '/obo/'
    up to letter case, and validation stores it without its first
    [len(base_url)] characters; an identifier that the pattern does not
    accept is left alone by the substitution. *)
Theorem strip_removes_base_length project :
  plain_or_dot project = true ->
  exists id_re,
    re_compile_anchored_i (base_url (parse_args project)) = Some id_re /\
    forall id,
      (re_match id_re id = None -> re_sub_empty id_re id = id) /\
      (forall stripped,
          re_match id_re id = Some stripped ->
          re_sub_empty id_re id = stripped /\
          (exists occ,
              id = occ +:+ stripped /\
              String.length occ = String.length (base_url (parse_args project))) /\
          (exists head tail, id = head +:+ tail /\ lower head = "/obo/")).
Proof.
  intros Hp.
  assert (is_Some (re_parse (base_url (parse_args project)))) as [r Hr].
  { apply re_parse_plain_or_dot. unfold parse_args, base_url.
    rewrite !append_cons, append_nil. cbn [plain_or_dot].
    by rewrite plain_or_dot_lower. }
  exists (Pattern r true). unfold re_compile_anchored_i, re_sub_empty, re_match.
  rewrite Hr. split; [done|]. simpl. intros id. split; [by intros ->|].
  intros stripped Hm. rewrite Hm. split; [done|]. split.
  - destruct (parsed_match _ _ Hr _ _ _ Hm) as (occ & rest & -> & Hlen & [= ->]).
    by exists occ.
  - exact (parsed_obo (lower project) r Hr id stripped Hm).
Qed.

Lemma strip_removes_base_length_witness :
  exists id_re,
    re_compile_anchored_i (base_url (parse_args "A.B")) = Some id_re /\
    re_sub_empty id_re "/OBO/A-B/term" = "/term".
Proof.
  destruct (strip_removes_base_length "A.B") as (id_re & Hre & H); [done|].
  exists id_re. split; [exact Hre|].
  apply (proj2 (H "/OBO/A-B/term") "/term").
  vm_compute in Hre. injection Hre as <-. by vm_compute.
Defined.

(** ** The project id *)

Lemma feed_base_url a1 a2 evs st :
  base_url a1 = base_url a2 -> feed a1 evs st = feed a2 evs st.
Proof.
  intros Hb. revert st. induction evs as [|ev evs IH]; intros st; [done|].
  simpl. assert (handle a1 ev st = handle a2 ev st) as ->.
  { destruct ev as [n|c|n]; try done. simpl. unfold endElement, end_purl.
    by rewrite Hb. }
  destruct (handle a2 ev st); simpl; [apply IH | done].
Qed.

(** X4: the letter case of the project id given on the command line has
    no influence on validation: two spellings of one project id end the
    run the same way and write the same entry blocks.  Only the header
    can differ. *)
Theorem project_case_irrelevant p1 p2 xml :
  lower p1 = lower p2 ->
  snd (main p1 xml) = snd (main p2 xml) /\
  tail (fst (main p1 xml)) = tail (fst (main p2 xml)).
Proof.
  intros Hl. unfold main, parse.
  rewrite (feed_base_url (parse_args p1) (parse_args p2)).
  2:{ unfold parse_args, base_url. by rewrite Hl. }
  destruct (feed (parse_args p2) (events_of xml) init) as [st|]; [|done].
  by destruct (length (entries st) =? 0).
Qed.

Lemma project_case_irrelevant_witness :
  tail (fst (main "Foo" two_records)) = tail (fst (main "FOO" two_records)).
Proof.
  refine (proj2 (project_case_irrelevant "Foo" "FOO" two_records _)).
  by vm_compute.
Defined.

(** ** Character data *)

(** X5: the handler only ever sees the concatenation of the character
    data: a run of text delivered in two [characters] calls has the same
    effect as the same text delivered in one, whatever comes before and
    after, and an empty chunk has no effect. *)
Theorem chunking_irrelevant a before c1 c2 after st :
  feed a (before ++ Characters c1 :: Characters c2 :: after) st
  = feed a (before ++ Characters (c1 +:+ c2) :: after) st
  /\ feed a (before ++ Characters "" :: after) st = feed a (before ++ after) st.
Proof.
  rewrite !feed_app. destruct (feed a before st) as [st1|]; [|done]. simpl.
  unfold characters. simpl. by rewrite append_assoc, append_empty_r; destruct st1.
Qed.

(** ** Empty fields *)

Lemma lstrip_spaces s : all_chars is_space s = true -> lstrip s = "".
Proof.
  induction s as [|c s IH]; [done|]. simpl.
  intros [Hc Hs]%andb_prop. rewrite Hc. auto.
Qed.

Lemma rstrip_empty s : rstrip s = "" <-> all_chars is_space s = true.
Proof.
  induction s as [|c s IH]; [done|]. simpl.
  destruct (rstrip s) as [|c' r] eqn:E.
  - destruct (is_space c); simpl; [|split; done].
    split; [intros _; by apply IH | done].
  - split; [done|]. intros [_ Hs]%andb_prop. by apply IH in Hs.
Qed.

Lemma lstrip_all_chars s :
  all_chars is_space (lstrip s) = true <-> all_chars is_space s = true.
Proof.
  induction s as [|c s IH]; [done|]. simpl.
  destruct (is_space c) eqn:E; simpl; [done|]. by rewrite E.
Qed.

(** [s.strip() == ''] holds for whitespace only. *)
Lemma strip_empty s : strip s = "" <-> all_chars is_space s = true.
Proof. unfold strip. by rewrite rstrip_empty, lstrip_all_chars. Qed.

Lemma feed_chars a evs st :
  forallb is_chars evs = true ->
  feed a evs st
  = Ok {| heap := heap st; count := count st;
          content := content st +:+ text_of evs;
          entry := entry st; exact := exact st; prefix := prefix st |}.
Proof.
  revert st. induction evs as [|[n|c|n] evs IH]; intros st H; try done.
  - simpl. rewrite append_empty_r. by destruct st.
  - simpl in *. rewrite IH by done. simpl. by rewrite append_assoc.
Qed.

(** X6: an [<id>], [<type>] or [<url>] element that holds text only
    aborts the run at its end tag with 'Empty <name>' exactly when that
    text is empty or all whitespace; the message carries the number of
    [<purl>] start tags seen so far (0 before the first record), and
    nothing that follows is looked at.  Otherwise the stripped text is
    stored under the name of the element. *)
Theorem empty_field_aborts a name inner after st :
  tracked name = true ->
  forallb is_chars inner = true ->
  (all_chars is_space (text_of inner) = true ->
   feed a (StartElement name :: inner ++ EndElement name :: after) st
   = Raise (EmptyField name (count st))) /\
  (all_chars is_space (text_of inner) = false ->
   feed a (StartElement name :: inner ++ EndElement name :: after) st
   = feed a after
       (set_item
          {| heap := heap st; count := count st; content := text_of inner;
             entry := entry st; exact := exact st; prefix := prefix st |}
          name (strip (text_of inner)))).
Proof.
  intros Htr Hin.
  assert (name <> "purl") as Hnp by by apply tracked_not_purl.
  cbn [feed handle bind]. rewrite feed_app, feed_chars by done.
  unfold startElement. rewrite bool_decide_eq_false_2 by done.
  cbn [bind feed handle heap count content entry exact prefix].
  rewrite append_nil. unfold endElement. rewrite Htr.
  cbn [content count]. split; intros Hs.
  - apply strip_empty in Hs. by rewrite bool_decide_eq_true_2.
  - rewrite bool_decide_eq_false_2; [done|].
    rewrite strip_empty. by rewrite Hs.
Qed.

Lemma empty_field_aborts_witness :
  feed (parse_args "FOO")
    (StartElement "purls" :: StartElement "id" :: Characters "  " :: Characters nl
       :: EndElement "id" :: StartElement "purl" :: EndElement "purl"
       :: EndElement "purls" :: [])
    init
  = Raise (EmptyField "id" 0).
Proof.
  change (feed (parse_args "FOO")
            ([StartElement "purls"]
               ++ StartElement "id" :: [Characters "  "; Characters nl]
               ++ EndElement "id"
               :: [StartElement "purl"; EndElement "purl"; EndElement "purls"])
            init = Raise (EmptyField "id" 0)).
  rewrite feed_app. cbn [feed handle bind app].
  refine (proj1 (empty_field_aborts (parse_args "FOO") "id"
                   [Characters "  "; Characters nl]
                   [StartElement "purl"; EndElement "purl"; EndElement "purls"]
                   (startElement "purls" init) _ _) _).
  - done.
  - done.
  - by vm_compute.
Defined.

(** ** Whitespace around a field *)

Lemma lstrip_append_spaces l s :
  all_chars is_space l = true -> lstrip (l +:+ s) = lstrip s.
Proof.
  induction l as [|c l IH]; [done|]. rewrite append_cons. simpl.
  intros [Hc Hl]%andb_prop. rewrite Hc. auto.
Qed.

Lemma rstrip_append_spaces s r :
  all_chars is_space r = true -> rstrip (s +:+ r) = rstrip s.
Proof.
  intros Hr. induction s as [|c s IH].
  - rewrite append_nil. by apply rstrip_empty.
  - rewrite append_cons. simpl. by rewrite IH.
Qed.

Lemma lstrip_append s r :
  all_chars is_space s = false -> lstrip (s +:+ r) = lstrip s +:+ r.
Proof.
  induction s as [|c s IH]; [done|]. rewrite append_cons. simpl.
  destruct (is_space c); simpl; [exact IH | done].
Qed.

(** Whitespace on either side does not change the stripped text. *)
Lemma strip_padding l s r :
  all_chars is_space l = true -> all_chars is_space r = true ->
  strip (l +:+ s +:+ r) = strip s.
Proof.
  intros Hl Hr. unfold strip. rewrite lstrip_append_spaces by done.
  destruct (all_chars is_space s) eqn:Hs.
  - rewrite (lstrip_spaces s) by done.
    rewrite lstrip_spaces; [done|].
    clear -Hs Hr. induction s as [|c s IH]; [done|].
    rewrite append_cons. simpl in *. apply andb_prop in Hs as [-> Hs]. auto.
  - by rewrite lstrip_append, rstrip_append_spaces.
Qed.

(** The stripped text neither begins nor ends with whitespace. *)
Lemma lstrip_head s c r : lstrip s = String c r -> is_space c = false.
Proof.
  induction s as [|c' s IH]; [done|]. simpl.
  destruct (is_space c') eqn:E; [exact IH|]. by intros [= <- _].
Qed.

Lemma rstrip_idem s : rstrip (rstrip s) = rstrip s.
Proof.
  induction s as [|c s IH]; [done|]. simpl.
  destruct (rstrip s) as [|c' r] eqn:E.
  - destruct (is_space c) eqn:Ec; [done|]. simpl. by rewrite Ec.
  - simpl in *. rewrite IH. done.
Qed.

Lemma rstrip_head s c r : rstrip s = String c r -> exists s', s = String c s'.
Proof.
  destruct s as [|c' s]; [done|]. simpl.
  destruct (rstrip s); [destruct (is_space c'); [done|]|];
    intros H; injection H as -> _; by exists s.
Qed.

Lemma strip_idem s : strip (strip s) = strip s.
Proof.
  unfold strip. destruct (rstrip (lstrip s)) as [|c r] eqn:E; [done|].
  assert (is_space c = false) as Hc.
  { apply rstrip_head in E as [s' E]. by eapply lstrip_head. }
  simpl lstrip. rewrite Hc, <- E. apply rstrip_idem.
Qed.

(** X7: whitespace before and after the text of an [<id>], [<type>] or
    [<url>] element is ignored: the padded element stores the same value
    as the bare one, or fails with the same exception.  Stripping a
    stored value again does not change it. *)
Theorem field_padding_ignored a name l value r st :
  tracked name = true ->
  all_chars is_space l = true -> all_chars is_space r = true ->
  strip (strip value) = strip value /\
  match feed a (events_of (field name value)) st with
  | Raise e => feed a (events_of (field name (l +:+ value +:+ r))) st = Raise e
  | Ok st1 =>
      exists st2,
        feed a (events_of (field name (l +:+ value +:+ r))) st = Ok st2 /\
        same_store st1 st2
  end.
Proof.
  intros Htr Hl Hr. split; [apply strip_idem|].
  assert (name <> "purl") as Hnp by by apply tracked_not_purl.
  cbn [field events_of map concat app feed handle bind].
  unfold endElement, startElement.
  rewrite Htr, (bool_decide_eq_false_2 (name = "purl")) by done.
  cbn [characters content count]. rewrite !append_nil, strip_padding by done.
  case_bool_decide; [done|]. eexists. split; [done|]. by repeat split.
Qed.

Lemma field_padding_ignored_witness :
  exists st2,
    feed (parse_args "FOO")
      (events_of (field "type" (nl +:+ "  " +:+ "302" +:+ " " +:+ nl))) init
    = Ok st2 /\
    same_store (set_item (characters "302" (startElement "type" init)) "type" "302") st2.
Proof.
  refine (proj2 (field_padding_ignored (parse_args "FOO") "type"
                   (nl +:+ "  ") "302" (" " +:+ nl) init _ _ _)).
  - done.
  - by vm_compute.
  - by vm_compute.
Defined.

(** ** Where a run can fail *)

(** X8: [sax.parse] can only fail at an end tag of [<id>], [<type>],
    [<url>] or [<purl>].  The callbacks before it were handled without
    an exception, nothing after it is looked at, and the number in the
    message is the number of [<purl>] start tags among the callbacks
    before it. *)
Theorem failure_at_end_tag a evs st e :
  feed a evs st = Raise e ->
  exists before name after st1,
    evs = before ++ EndElement name :: after /\
    feed a before st = Ok st1 /\
    endElement a name st1 = Raise e /\
    (tracked name = true \/ name = "purl") /\
    (e = PatternOutsideModel (base_url a) \/
     error_index e = Some (count st + opened before)).
Proof.
  revert st. induction evs as [|ev evs IH]; intros st H; [done|].
  simpl in H. destruct (handle a ev st) as [st1|e1] eqn:E; simpl in H.
  - destruct (IH st1 H) as (before & name & after & st2 & -> & Hb & He & Hn & Hi).
    exists (ev :: before), name, after, st2. split; [done|].
    split; [by simpl; rewrite E|]. split; [done|]. split; [done|].
    destruct Hi as [Hi | Hi]; [by left | right]. rewrite Hi. f_equal.
    apply handle_count in E. rewrite E.
    change (ev :: before) with ([ev] ++ before). rewrite opened_app.
    unfold opened at 2. simpl. destruct (is_start_purl ev); simpl; lia.
  - injection H as ->. destruct ev as [n|c|n]; try done. simpl in E.
    exists [], n, evs, st. split; [done|]. split; [done|]. split; [done|].
    unfold endElement in E. unfold opened. simpl. rewrite Nat.add_0_r.
    destruct (tracked n).
    + split; [by left|]. case_bool_decide; [|done]. injection E as <-. by right.
    + case_bool_decide; [|done]. split; [by right|].
      unfold end_purl in E. repeat case_match; simplify_eq; auto.
Qed.

Lemma failure_at_end_tag_witness :
  exists before name after st1,
    events_of (one_record "/obo/bar/a" "302" "http://example.org/a")
    = before ++ EndElement name :: after /\
    feed (parse_args "FOO") before init = Ok st1 /\
    endElement (parse_args "FOO") name st1
    = Raise (PrefixMismatch 1 "/obo/bar/a" "/obo/foo").
Proof.
  destruct (failure_at_end_tag (parse_args "FOO")
              (events_of (one_record "/obo/bar/a" "302" "http://example.org/a"))
              init (PrefixMismatch 1 "/obo/bar/a" "/obo/foo"))
    as (before & name & after & st1 & H1 & H2 & H3 & _); [by vm_compute|].
  by exists before, name, after, st1.
Defined.

(** ** The order of the prefix entries *)

(** A list in descending order of pairwise different keys is determined
    by its elements. *)
Lemma sorted_unique {A : Type} (key : A -> nat) l1 l2 :
  StronglySorted (desc key) l1 -> StronglySorted (desc key) l2 ->
  NoDup (map key l1) -> l1 ≡ₚ l2 -> l1 = l2.
Proof.
  intros H1. revert l2. induction H1 as [|x l1 Hs1 IH Hx]; intros l2 H2 Hnd Hp.
  - by apply Permutation_nil_l in Hp.
  - destruct H2 as [|y l2 Hs2 Hy].
    { by apply Permutation_nil_r in Hp. }
    simpl in Hnd. apply NoDup_cons in Hnd as [Hnx Hnd].
    assert (x = y) as <-.
    { assert (x ∈ y :: l2) as Hin by (rewrite <- Hp; left).
      apply elem_of_cons in Hin as [? | Hin]; [done|].
      assert (y ∈ x :: l1) as Hin' by (rewrite Hp; left).
      apply elem_of_cons in Hin' as [? | Hin']; [done|].
      rewrite Forall_forall in Hx, Hy.
      apply Hy in Hin. apply Hx in Hin' as Hle. unfold desc in *.
      destruct Hnx. replace (key x) with (key y) by lia.
      by apply list_elem_of_fmap_2. }
    f_equal. apply IH; [done..|]. by apply Permutation_cons_inv in Hp.
Qed.

(** X9: on regular documents whose records all pass, the order of the
    prefix records in the input has no influence on the output as long
    as their stripped ids have pairwise different lengths: two documents
    with the same exact records in the same order and the same prefix
    records in any order make the script write the same text. *)
Theorem prefix_record_order_irrelevant project xml1 xml2 ds1 ds2 :
  regular false xml1 = true -> regular false xml2 = true ->
  all_purls (parse_args project) 0 (records_of xml1) = Ok ds1 ->
  all_purls (parse_args project) 0 (records_of xml2) = Ok ds2 ->
  List.filter is_exact ds1 = List.filter is_exact ds2 ->
  List.filter (fun d => negb (is_exact d)) ds1
  ≡ₚ List.filter (fun d => negb (is_exact d)) ds2 ->
  NoDup (map (fun d => String.length (default "" (d !! "id")))
           (List.filter (fun d => negb (is_exact d)) ds1)) ->
  main project xml1 = main project xml2.
Proof.
  intros R1 R2 H1 H2 Hx Hp Hnd. rewrite !main_pipeline by done.
  unfold pipeline. rewrite H1, H2. unfold compose. rewrite Hx.
  assert (sorted_desc id_len (List.filter (fun d => negb (is_exact d)) ds1)
          = sorted_desc id_len (List.filter (fun d => negb (is_exact d)) ds2))
    as ->; [|done].
  apply (sorted_unique id_len).
  - apply sorted_desc_sorted.
  - apply sorted_desc_sorted.
  - assert (map id_len (sorted_desc id_len (List.filter (fun d => negb (is_exact d)) ds1))
            ≡ₚ map id_len (List.filter (fun d => negb (is_exact d)) ds1)) as ->
      by apply Permutation_map, sorted_desc_perm.
    exact Hnd.
  - etrans; [apply sorted_desc_perm|]. etrans; [exact Hp|].
    symmetry. apply sorted_desc_perm.
Qed.

Lemma prefix_record_order_irrelevant_witness :
  main "FOO" short_first = main "FOO" long_first.
Proof.
  refine (prefix_record_order_irrelevant "FOO" short_first long_first
            (validated "FOO" short_first) (validated "FOO" long_first)
            _ _ _ _ _ _ _).
  - done.
  - done.
  - by vm_compute.
  - by vm_compute.
  - by vm_compute.
  - vm_compute. apply Permutation_swap.
  - apply (bool_decide_unpack _). by vm_compute.
Defined.

(** ** What a record depends on *)

Lemma gather_all_app idx e1 e2 s :
  gather_all idx (e1 ++ e2) s = bind (gather_all idx e1 s) (gather_all idx e2).
Proof.
  revert s. induction e1 as [|ev e1 IH]; intros s; simpl; [done|].
  destruct (gather idx ev s); simpl; [apply IH | done].
Qed.

Lemma capture_app idx f1 f2 d :
  capture idx (f1 ++ f2) d = bind (capture idx f1 d) (capture idx f2).
Proof.
  revert d. induction f1 as [|[n v] f1 IH]; intros d; simpl; [done|].
  case_bool_decide; [done|]. apply IH.
Qed.

Lemma gather_texts idx children c d :
  forallb is_text children = true ->
  gather_all idx (concat (map events_of children)) (c, d)
  = Ok (c +:+ text_of_nodes children, d).
Proof.
  revert c. induction children as [|[chunk|n l] children IH]; intros c H; try done.
  - simpl. by rewrite append_empty_r.
  - simpl in *. rewrite IH by done. by rewrite append_assoc.
Qed.

(** The accumulator on a node whose tracked elements hold text only:
    what it stores are the fields of the node, in order. *)
Lemma gather_fields idx n c d :
  leaf_fields n = true ->
  match capture idx (fields_in n) d with
  | Raise e => gather_all idx (events_of n) (c, d) = Raise e
  | Ok d' => exists c', gather_all idx (events_of n) (c, d) = Ok (c', d')
  end.
Proof.
  revert c d.
  induction n as [chunk|name children IH] using node_induction; intros c d Hl.
  - simpl. eauto.
  - cbn [leaf_fields fields_in events_of] in *.
    change (StartElement name :: ?l) with ([StartElement name] ++ l).
    rewrite gather_all_app. cbn [gather_all gather bind snd].
    rewrite gather_all_app.
    destruct (tracked name) eqn:Htr.
    + rewrite gather_texts by done. cbn [bind gather_all gather fst snd capture].
      rewrite Htr, append_nil. case_bool_decide; [done|]. eauto.
    + assert (forall c0 d0,
        match capture idx (concat (map fields_in children)) d0 with
        | Raise e =>
            gather_all idx (concat (map events_of children)) (c0, d0) = Raise e
        | Ok d' =>
            exists c',
              gather_all idx (concat (map events_of children)) (c0, d0) = Ok (c', d')
        end) as Hkids.
      { induction IH as [|x l Hx _ IHl]; intros c0 d0; [simpl; eauto|].
        simpl in Hl. apply andb_prop in Hl as [Hlx Hll].
        cbn [map concat]. rewrite capture_app, gather_all_app.
        specialize (Hx c0 d0 Hlx).
        destruct (capture idx (fields_in x) d0) as [d1|e]; [|by rewrite Hx].
        destruct Hx as (c1 & ->). cbn [bind]. by apply IHl. }
      specialize (Hkids "" d).
      destruct (capture idx (concat (map fields_in children)) d) as [d'|e];
        [|by rewrite Hkids].
      destruct Hkids as (c' & ->). cbn [bind gather_all gather].
      rewrite Htr. eauto.
Qed.

Lemma one_purl_fields a idx children :
  forallb leaf_fields children = true ->
  one_purl a idx children
  = bind (capture idx (concat (map fields_in children)) ∅) (validate a idx).
Proof.
  intros Hl. unfold one_purl.
  pose proof (gather_fields idx (Element "record" children) "" ∅) as H.
  cbn [leaf_fields fields_in events_of] in H.
  replace (tracked "record") with false in H by done.
  specialize (H Hl).
  change (StartElement "record" :: ?l) with ([StartElement "record"] ++ l) in H.
  rewrite gather_all_app in H. cbn [gather_all gather bind snd] in H.
  rewrite gather_all_app in H.
  destruct (capture idx (concat (map fields_in children)) ∅) as [d'|e].
  - destruct H as (c' & H).
    destruct (gather_all idx (concat (map events_of children)) ("", ∅))
      as [[c1 d1]|]; [|done].
    cbn [bind gather_all gather] in H. replace (tracked "record") with false in H by done.
    by injection H as _ ->.
  - destruct (gather_all idx (concat (map events_of children)) ("", ∅))
      as [[c1 d1]|]; [|by injection H as ->].
    cbn [bind gather_all gather] in H. by replace (tracked "record") with false in H.
Qed.

Lemma all_purls_fields a idx rs1 rs2 :
  Forall (fun children => forallb leaf_fields children = true) rs1 ->
  Forall (fun children => forallb leaf_fields children = true) rs2 ->
  map (fun children => concat (map fields_in children)) rs1
  = map (fun children => concat (map fields_in children)) rs2 ->
  all_purls a idx rs1 = all_purls a idx rs2.
Proof.
  intros H1. revert idx rs2. induction H1 as [|r1 rs1 Hr1 _ IH]; intros idx rs2 H2 Hm.
  - destruct rs2; [done | discriminate].
  - destruct H2 as [|r2 rs2 Hr2 H2]; [discriminate|].
    simpl in Hm. injection Hm as Hf Hm. simpl.
    rewrite !one_purl_fields, Hf by done.
    by rewrite (IH (S idx) rs2).
Qed.

(** X10: on regular documents whose [<id>], [<type>] and [<url>] elements
    hold text only, the run depends on nothing but the tracked fields of
    each record, in document order, and their text: indentation, other
    text, other elements such as [<maintainers>] and [<target>], and the
    way the text is cut into chunks play no part. *)
Theorem only_fields_matter project xml1 xml2 :
  regular false xml1 = true -> regular false xml2 = true ->
  Forall (fun children => forallb leaf_fields children = true) (records_of xml1) ->
  Forall (fun children => forallb leaf_fields children = true) (records_of xml2) ->
  map (fun children => concat (map fields_in children)) (records_of xml1)
  = map (fun children => concat (map fields_in children)) (records_of xml2) ->
  main project xml1 = main project xml2.
Proof.
  intros R1 R2 L1 L2 Hm. rewrite !main_pipeline by done. unfold pipeline.
  by rewrite (all_purls_fields _ 0 _ _ L1 L2 Hm).
Qed.

Lemma only_fields_matter_witness :
  main "FOO" two_records_bare
  = ( [ header (parse_args "FOO");
        render {[ "rule" := "exact"; "id" := "/branches/";
                  "url" := "http://example.org/b" ]};
        render {[ "rule" := "prefix"; "id" := "/short";
                  "url" := "http://example.org/s" ]} ],
      Ok tt ).
Proof.
  refine (eq_trans (only_fields_matter "FOO" two_records_bare
                      (Element "purls"
                         [ Element "purl"
                             [ field "type" " partial"; field "id" "/obo/foo/short";
                               field "url" "http://example.org/s" ];
                           Element "purl"
                             [ field "url" "http://example.org/b"; field "type" "302";
                               field "id" "/obo/foo/branches/" ] ])
                      _ _ _ _ _) _).
  - done.
  - done.
  - by repeat constructor.
  - by repeat constructor.
  - done.
  - by vm_compute.
Defined.

(** ** The script and the pipeline *)

(** X11: on a regular document the script, with its shared dictionaries
    and global lists, writes what the pipeline writes and ends as it
    ends: every record is handled on its own.  After the run the heap
    holds the dictionary of [__init__] and then one validated dictionary
    per record, in document order. *)
Theorem script_is_pipeline project xml :
  regular false xml = true ->
  main project xml = pipeline project xml /\
  (forall st,
      parse (parse_args project) xml = Ok st ->
      exists ds,
        all_purls (parse_args project) 0 (records_of xml) = Ok ds /\
        heap st = ∅ :: ds /\ length ds = count_records xml).
Proof.
  intros Hreg. split; [by apply main_pipeline|].
  intros st Hp.
  destruct (parse_regular _ _ _ Hreg Hp) as (ds & Hds & Hh & _).
  exists ds. split; [done|]. split; [done|].
  pose proof (feed_count _ _ _ _ Hp) as Hc.
  rewrite opened_events_of in Hc. simpl in Hc. rewrite <- Hc.
  pose proof (feed_regular (parse_args project) xml init Hreg) as H.
  change (count init) with 0 in H. rewrite Hds in H.
  destruct H as (st' & H & (_ & Hc' & _)). unfold parse in Hp.
  assert (st' = st) as -> by congruence.
  by rewrite Hc', count_collect_all.
Qed.

Lemma script_is_pipeline_witness :
  main "FOO" two_records = pipeline "FOO" two_records.
Proof. exact (proj1 (script_is_pipeline "FOO" two_records eq_refl)). Defined.

(** ** The entry template *)

Lemma append_inv_tail s1 s2 t : s1 +:+ t = s2 +:+ t -> s1 = s2.
Proof.
  revert s2. induction s1 as [|c s1 IH]; intros s2 H.
  - destruct s2 as [|c2 s2]; [done|].
    apply (f_equal len) in H. rewrite append_nil, len_append in H. simpl in H. lia.
  - destruct s2 as [|c2 s2].
    + apply (f_equal len) in H. rewrite append_nil, len_append in H. simpl in H. lia.
    + rewrite !append_cons in H. injection H as -> H. f_equal. by apply IH.
Qed.

(** Two texts without a line feed, each followed by a line feed. *)
Lemma line_split s1 s2 t1 t2 :
  all_chars (fun c => negb (bool_decide (c = line_feed))) s1 = true ->
  all_chars (fun c => negb (bool_decide (c = line_feed))) s2 = true ->
  s1 +:+ String line_feed t1 = s2 +:+ String line_feed t2 ->
  s1 = s2 /\ t1 = t2.
Proof.
  revert s2. induction s1 as [|c s1 IH]; intros s2 H1 H2 H.
  - destruct s2 as [|c2 s2].
    + rewrite !append_nil in H. by injection H as ->.
    + rewrite append_nil, append_cons in H. injection H as <- _.
      by simpl in H2.
  - simpl in H1. apply andb_prop in H1 as [Hc H1].
    destruct s2 as [|c2 s2].
    + rewrite append_nil, append_cons in H. injection H as -> _.
      by rewrite bool_decide_eq_true_2 in Hc.
    + simpl in H2. apply andb_prop in H2 as [_ H2].
      rewrite !append_cons in H. injection H as -> H.
      destruct (IH s2 H1 H2 H) as [-> ->]. done.
Qed.

(** X12: an entry block determines the entry.  Two dictionaries with a
    rule of 'exact' or 'prefix' and an id without a line feed that are
    formatted to the same block have the same rule, the same id and the
    same url. *)
Theorem render_injective d1 d2 :
  complete d1 -> complete d2 ->
  all_chars (fun c => negb (bool_decide (c = line_feed))) (item d1 "id") = true ->
  all_chars (fun c => negb (bool_decide (c = line_feed))) (item d2 "id") = true ->
  render d1 = render d2 ->
  item d1 "rule" = item d2 "rule" /\ item d1 "id" = item d2 "id" /\
  item d1 "url" = item d2 "url".
Proof.
  intros (_ & _ & _ & R1) (_ & _ & _ & R2) L1 L2. unfold render.
  assert (forall d, String.concat ""
            [ "- "; item d "rule"; ": "; item d "id"; nl;
              "  replacement: "; item d "url"; nl; nl ]
          = "- " +:+ item d "rule" +:+ ": " +:+ item d "id"
              +:+ String line_feed ("  replacement: " +:+ item d "url" +:+ nl +:+ nl))
    as Hform.
  { intros d. cbn [String.concat]. by rewrite !append_nil. }
  rewrite !Hform. intros H. apply append_inv_head in H.
  assert (item d1 "rule" = item d2 "rule") as Hr.
  { unfold item in *. destruct R1 as [E1 | E1], R2 as [E2 | E2];
      rewrite E1, E2 in *; simpl in *; try done.
    all: rewrite !append_cons in H; discriminate H. }
  split; [done|]. rewrite Hr in H. apply append_inv_head, append_inv_head in H.
  destruct (line_split _ _ _ _ L1 L2 H) as [Hid Hrest].
  split; [done|]. apply append_inv_head in Hrest. by apply append_inv_tail in Hrest.
Qed.

Lemma render_injective_witness :
  item ({[ "rule" := "exact"; "id" := "/a"; "url" := "http://x/"; "type" := "302" ]} : dict) "url"
  = item ({[ "rule" := "exact"; "id" := "/a"; "url" := "http://x/"; "type" := "partial" ]} : dict) "url".
Proof.
  refine (proj2 (proj2 (render_injective
            {[ "rule" := "exact"; "id" := "/a"; "url" := "http://x/"; "type" := "302" ]}
            {[ "rule" := "exact"; "id" := "/a"; "url" := "http://x/"; "type" := "partial" ]}
            _ _ _ _ _))).
  - unfold complete. split_and!; try (by eexists); by left.
  - unfold complete. split_and!; try (by eexists); by left.
  - done.
  - done.
  - done.
Defined.

End Migrate.
